(** * The cham connection gateway (service/gate.go)

    A shallow embedding of the gateway's sessions, accept loop, read loop,
    session registry and dispatch bridge, together with the properties its
    design document states about them.

    Conventions.  A Go [uint32] or [uint16] is a [Z] kept in range by an
    explicit [mod]; a byte is a [Byte.byte]; a Go map is a [gmap]; the
    objects the code shares through pointers ([net.Conn], [bufio.Reader],
    [bufio.Writer]) live in heaps indexed by [nat] handles inside [World].
    A run-time panic is the [Panic] outcome of [Result]. *)

From Stdlib Require Import ZArith Lia.
From Stdlib.Strings Require Import Byte.
From stdpp Require Import gmap list numbers.

Local Open Scope Z_scope.

(** ** Machine integers and bytes *)

Definition uint32_mod : Z := 2 ^ 32.
Definition uint16_mod : Z := 2 ^ 16.

(** [x + 1] on a [uint32]. *)
Definition uint32_incr (x : Z) : Z := (x + 1) mod uint32_mod.

Definition byte_to_Z (b : byte) : Z := Z.of_N (Byte.to_N b).

(** The conversion [byte(v)]: the low eight bits of [v]. *)
Definition byte_of_Z (v : Z) : byte :=
  match Byte.of_N (Z.to_N (v mod 256)) with
  | Some b => b
  | None => x00
  end.

(** [binary.BigEndian.Uint16(b)]: [uint16(b[1]) | uint16(b[0])<<8].
    Indexing [b[1]] panics on a slice shorter than two bytes. *)
Definition BigEndian_Uint16 (b : list byte) : option Z :=
  match b with
  | b0 :: b1 :: _ => Some (Z.lor (byte_to_Z b1) (Z.shiftl (byte_to_Z b0) 8))
  | _ => None
  end.

(** [binary.BigEndian.PutUint16]: [b[0] = byte(v >> 8); b[1] = byte(v)]. *)
Definition BigEndian_PutUint16 (v : Z) : list byte :=
  [byte_of_Z (Z.shiftr v 8); byte_of_Z v].

(** [make([]byte, n)]: [n] zero bytes. *)
Definition make_bytes (n : nat) : list byte := replicate n x00.

(** ** Errors *)

(** The error values the gateway can meet.  [NetError temporary] stands for
    any value implementing [net.Error], with the answer of its
    [Temporary()] method. *)
Inductive error : Type :=
| EOF
| ErrUnexpectedEOF
| ErrShortWrite
| NetError (temporary : bool)
| OtherError (code : nat).

(** The type assertion [err.(net.Error)]. *)
Definition as_net_Error (e : error) : option bool :=
  match e with
  | NetError t => Some t
  | _ => None
  end.

(** A transport error the gateway treats as final: a [net.Error] whose
    [Temporary()] is false. *)
Definition non_recoverable (e : error) : Prop :=
  as_net_Error e = Some false.

(** ** Outcomes: normal return or panic *)

Inductive Result (A : Type) : Type :=
| Ok (a : A)
| Panic.
Arguments Ok {A} a.
Arguments Panic {A}.

#[global] Instance Result_ret : MRet Result := fun _ a => Ok a.
#[global] Instance Result_bind : MBind Result := fun _ _ k r =>
  match r with
  | Ok a => k a
  | Panic => Panic
  end.

(** ** The transport: what a connection delivers *)

(** One completed [Read] on the socket: some bytes, or an error. *)
Inductive ReadEvent : Type :=
| Chunk (data : list byte)
| Fail (e : error).

(** The loop of [io.ReadAtLeast]:
    [for n < min && err == nil { nn, err = r.Read(buf[n:]); n += nn }],
    on the reads the transport still has to deliver.  A [Read] takes at most
    the room left in the buffer and leaves the rest of a chunk for the next
    one.  When the peer has sent everything and closed, [Read] gives [EOF]. *)
Fixpoint read_loop (evs : list ReadEvent) (need : nat)
  : list byte * option error * list ReadEvent :=
  match need with
  | O => ([], None, evs)
  | S _ =>
    match evs with
    | [] => ([], Some EOF, [])
    | Fail e :: evs' => ([], Some e, evs')
    | Chunk c :: evs' =>
      if (length c <=? need)%nat then
        let '(d, e, rest) := read_loop evs' (need - length c) in
        (c ++ d, e, rest)
      else (take need c, None, Chunk (drop need c) :: evs')
    end
  end.

(** [io.ReadFull(r, buf)] with [len(buf) = n]: the bytes read, the error,
    and the transport afterwards.
    [if n >= min { err = nil } else if n > 0 && err == EOF
       { err = ErrUnexpectedEOF }]. *)
Definition io_ReadFull (evs : list ReadEvent) (n : nat)
  : list byte * option error * list ReadEvent :=
  let '(d, e, rest) := read_loop evs n in
  let e' :=
    if (n <=? length d)%nat then None
    else match e with
         | Some EOF => if (0 <? length d)%nat then Some ErrUnexpectedEOF else Some EOF
         | _ => e
         end in
  (d, e', rest).

(** The buffer after a read that obtained [d]: the bytes read, then the
    zeroes [make] left there. *)
Definition fill_buf (n : nat) (d : list byte) : list byte :=
  take n (d ++ make_bytes (n - length d)).

(** The filter of [Session.ReadFull] on the error of [io.ReadFull]:
    [if e, ok := err.(net.Error); ok && !e.Temporary() { return e }];
    [return nil] otherwise. *)
Definition ReadFull_filter (err : option error) : option error :=
  match err with
  | Some e =>
    match as_net_Error e with
    | Some false => Some e
    | _ => None
    end
  | None => None
  end.

(** ** Shared objects *)

(** A [net.Conn].  [inbound] is what the peer will deliver, [outbound] what
    the socket has taken so far.  [wfail = Some (k, e)] is a transport that
    takes [k] more bytes and then fails every write with [e]; [None] is one
    that takes every write. *)
Record Conn : Type := mkConn {
  closed : bool;
  inbound : list ReadEvent;
  outbound : list byte;
  wfail : option (nat * error)
}.

(** A [bufio.Reader]: the stream [rd] it reads from, nil after [Reset(nil)].
    The bytes it holds are kept with the stream they came from. *)
Record BufioReader : Type := mkReader { rd : option nat }.

(** A [bufio.Writer]: the stream [wr] it writes to, its sticky error [err]
    and the bytes not yet flushed.  The buffer is not bounded here, so the
    socket is written by [Flush] only; the code flushes after every write. *)
Record BufioWriter : Type := mkWriter {
  wr : option nat;
  err : option error;
  buf : list byte
}.

(** A [bufio.ReadWriter]: pointers to a reader and a writer. *)
Record ReadWriter : Type := mkReadWriter { Reader : nat; Writer : nat }.

Record Session : Type := mkSession {
  sessionid : Z;
  conn : nat;
  brw : ReadWriter
}.

Record ClientMsg : Type := mkClientMsg {
  session : Z;
  data : list byte
}.

Definition NewClientMsg (sid : Z) (d : list byte) : ClientMsg := mkClientMsg sid d.

Definition Address : Type := nat.

Record Conf : Type := mkConf {
  address : nat;
  conf_maxclient : Z
}.

(** The [Gate].  [quit] is true once the channel is closed.  The
    [sync.RWMutex] has no field: its operations are recorded in the trace. *)
Record Gate : Type := mkGate {
  source : Address;
  clinetnum : Z;
  maxclient : Z;
  quit : bool;
  sessions : gmap Z Session
}.

(** What the program does that is not a change of its own data. *)
Inductive Event : Type :=
| EvLock
| EvUnlock
| EvRLock
| EvRUnlock
| EvSessionClose (sid : Z)
| EvConnClose (c : nat)
| EvListenClose.

#[global] Instance Event_eq_dec : EqDecision Event.
Proof. solve_decision. Defined.

(** The heaps, the two pools, the messages pushed to the destination
    services (with the address they were pushed for) and the trace. *)
Record World : Type := mkWorld {
  conns : list Conn;
  readers : list BufioReader;
  writers : list BufioWriter;
  bufioReaderPool : list nat;
  bufioWriterPool : list nat;
  mailbox : list (Address * ClientMsg);
  trace : list Event
}.

Definition set_conns (f : list Conn -> list Conn) (w : World) : World :=
  mkWorld (f (conns w)) (readers w) (writers w) (bufioReaderPool w)
          (bufioWriterPool w) (mailbox w) (trace w).
Definition set_readers (f : list BufioReader -> list BufioReader) (w : World) : World :=
  mkWorld (conns w) (f (readers w)) (writers w) (bufioReaderPool w)
          (bufioWriterPool w) (mailbox w) (trace w).
Definition set_writers (f : list BufioWriter -> list BufioWriter) (w : World) : World :=
  mkWorld (conns w) (readers w) (f (writers w)) (bufioReaderPool w)
          (bufioWriterPool w) (mailbox w) (trace w).
Definition set_bufioReaderPool (f : list nat -> list nat) (w : World) : World :=
  mkWorld (conns w) (readers w) (writers w) (f (bufioReaderPool w))
          (bufioWriterPool w) (mailbox w) (trace w).
Definition set_bufioWriterPool (f : list nat -> list nat) (w : World) : World :=
  mkWorld (conns w) (readers w) (writers w) (bufioReaderPool w)
          (f (bufioWriterPool w)) (mailbox w) (trace w).
Definition set_mailbox (f : list (Address * ClientMsg) -> list (Address * ClientMsg))
  (w : World) : World :=
  mkWorld (conns w) (readers w) (writers w) (bufioReaderPool w)
          (bufioWriterPool w) (f (mailbox w)) (trace w).
Definition emit (e : Event) (w : World) : World :=
  mkWorld (conns w) (readers w) (writers w) (bufioReaderPool w)
          (bufioWriterPool w) (mailbox w) (trace w ++ [e]).

Definition set_clinetnum (n : Z) (g : Gate) : Gate :=
  mkGate (source g) n (maxclient g) (quit g) (sessions g).
Definition set_maxclient (n : Z) (g : Gate) : Gate :=
  mkGate (source g) (clinetnum g) n (quit g) (sessions g).
Definition set_quit (b : bool) (g : Gate) : Gate :=
  mkGate (source g) (clinetnum g) (maxclient g) b (sessions g).
Definition set_sessions (m : gmap Z Session) (g : Gate) : Gate :=
  mkGate (source g) (clinetnum g) (maxclient g) (quit g) m.

Definition empty_world : World := mkWorld [] [] [] [] [] [] [].

(** ** Connections *)

(** [conn.Close()]; its error result is dropped by every caller. *)
Definition conn_Close (c : nat) (w : World) : World :=
  emit (EvConnClose c)
    (set_conns (alter (fun k => mkConn true (inbound k) (outbound k) (wfail k)) c) w).

(** [conn.Write(p)] on the connection record: bytes taken, error. *)
Definition conn_Write (k : Conn) (p : list byte) : Conn * nat * option error :=
  if closed k then (k, O, Some (NetError false))
  else match wfail k with
       | None => (mkConn false (inbound k) (outbound k ++ p) None, length p, None)
       | Some (room, e) =>
         if (length p <=? room)%nat
         then (mkConn false (inbound k) (outbound k ++ p)
                      (Some ((room - length p)%nat, e)), length p, None)
         else (mkConn false (inbound k) (outbound k ++ take room p) (Some (O, e)),
               room, Some e)
       end.

(** ** The buffer pool *)

(** [sync.Pool.Get]: any one of the pooled objects, or nil; [pick] is the
    pool's choice. *)
Definition pool_Get (pick : option nat) (pool : list nat) : option nat * list nat :=
  match pick with
  | Some i =>
    match pool !! i with
    | Some p => (Some p, delete i pool)
    | None => (None, pool)
    end
  | None => (None, pool)
  end.

Definition newBufioReader (pick : option nat) (r : nat) (w : World) : nat * World :=
  match pool_Get pick (bufioReaderPool w) with
  | (Some br, pool') =>
    (br, set_readers (fun h => <[br := mkReader (Some r)]> h)
           (set_bufioReaderPool (fun _ => pool') w))
  | (None, _) =>
    (length (readers w), set_readers (fun h => h ++ [mkReader (Some r)]) w)
  end.

Definition putBufioReader (r : nat) (w : World) : World :=
  set_bufioReaderPool (fun pool => r :: pool)
    (set_readers (fun h => <[r := mkReader None]> h) w).

Definition newBufioWriter (pick : option nat) (c : nat) (w : World) : nat * World :=
  match pool_Get pick (bufioWriterPool w) with
  | (Some bw, pool') =>
    (bw, set_writers (fun h => <[bw := mkWriter (Some c) None []]> h)
           (set_bufioWriterPool (fun _ => pool') w))
  | (None, _) =>
    (length (writers w), set_writers (fun h => h ++ [mkWriter (Some c) None []]) w)
  end.

Definition putBufioWriter (p : nat) (w : World) : World :=
  set_bufioWriterPool (fun pool => p :: pool)
    (set_writers (fun h => <[p := mkWriter None None []]> h) w).

(** ** Buffered writes and reads *)

(** [bufio.Writer.Write]: with a sticky error nothing is taken; otherwise
    the bytes go to the buffer.  A handle outside the heap is a pointer
    that was never allocated; no run of the program produces one. *)
Definition bufio_Write (p : nat) (d : list byte) (w : World)
  : Result (nat * option error * World) :=
  match writers w !! p with
  | None => Panic
  | Some b =>
    match err b with
    | Some e => Ok (O, Some e, w)
    | None =>
      Ok (length d, None,
          set_writers (fun h => <[p := mkWriter (wr b) None (buf b ++ d)]> h) w)
    end
  end.

(** [bufio.Writer.Flush]:
    [if b.err != nil { return b.err }; if b.n == 0 { return nil };
     n, err := b.wr.Write(b.buf[0:b.n]);
     if n < b.n && err == nil { err = io.ErrShortWrite }; ...].
    Calling [Write] on a nil [b.wr] panics. *)
Definition bufio_Flush (p : nat) (w : World) : Result (option error * World) :=
  match writers w !! p with
  | None => Panic
  | Some b =>
    match err b, buf b with
    | Some e, _ => Ok (Some e, w)
    | None, [] => Ok (None, w)
    | None, _ :: _ =>
      match wr b with
      | None => Panic
      | Some c =>
        match conns w !! c with
        | None => Panic
        | Some k =>
          let '(k', n, e) := conn_Write k (buf b) in
          let e' := match e with
                    | None => if (n <? length (buf b))%nat then Some ErrShortWrite else None
                    | Some _ => e
                    end in
          let b' := match e' with
                    | Some _ => mkWriter (wr b) e' (drop n (buf b))
                    | None => mkWriter (wr b) None []
                    end in
          Ok (e', set_writers (fun h => <[p := b']> h)
                    (set_conns (fun h => <[c := k']> h) w))
        end
      end
    end
  end.

(** [io.ReadFull(r, buf)] through the [bufio.Reader] at handle [p], for a
    buffer of [n] bytes.  No [Read] is issued for an empty buffer; a [Read]
    through a nil [rd] panics; a [Read] on a connection closed on this side
    fails with a [net.Error] that is not temporary. *)
Definition bufio_ReadFull (p : nat) (n : nat) (w : World)
  : Result (list byte * option error * World) :=
  match readers w !! p, n with
  | None, _ => Panic
  | Some _, O => Ok ([], None, w)
  | Some r, S _ =>
    match rd r with
    | None => Panic
    | Some c =>
      match conns w !! c with
      | None => Panic
      | Some k =>
        if closed k then
          let '(d, e, _) := io_ReadFull [Fail (NetError false)] n in
          Ok (d, e, w)
        else
          let '(d, e, rest) := io_ReadFull (inbound k) n in
          Ok (d, e,
              set_conns (fun h => <[c := mkConn false rest (outbound k) (wfail k)]> h) w)
      end
    end
  end.

(** ** Session *)

Definition Session_Close (s : Session) (w : World) : World :=
  conn_Close (conn s)
    (putBufioWriter (Writer (brw s))
       (putBufioReader (Reader (brw s))
          (emit (EvSessionClose (sessionid s)) w))).

(** [s.brw.Write(data); s.brw.Flush()]: both results are dropped. *)
Definition Session_Write (s : Session) (d : list byte) (w : World) : Result World :=
  '(_, _, w1) ← bufio_Write (Writer (brw s)) d w;
  '(_, w2) ← bufio_Flush (Writer (brw s)) w1;
  Ok w2.

Definition newSession (sid : Z) (c : nat) (pickr pickw : option nat) (w : World)
  : Session * World :=
  let '(br, w1) := newBufioReader pickr c w in
  let '(bw, w2) := newBufioWriter pickw c w1 in
  (mkSession sid c (mkReadWriter br bw), w2).

(** [Session.ReadFull(buf)] with [len(buf) = n]: the buffer afterwards and
    the error returned. *)
Definition Session_ReadFull (s : Session) (n : nat) (w : World)
  : Result (list byte * option error * World) :=
  '(d, e, w1) ← bufio_ReadFull (Reader (brw s)) n w;
  Ok (fill_buf n d, ReadFull_filter e, w1).

(** ** Gate *)

Definition newGate (src : Address) : Gate := mkGate src 0 0 false ∅.

(** [close(g.quit)]: closing a closed channel panics. *)
Definition Gate_close (g : Gate) : Result Gate :=
  if quit g then Panic else Ok (set_quit true g).

(** The part of [closeSession] that runs with the mutex held. *)
Definition closeSession_locked (g : Gate) (s : Session) (w : World) : Gate * World :=
  let w1 := emit EvLock w in
  let g1 := set_sessions (delete (sessionid s) (sessions g)) g in
  (g1, emit EvUnlock w1).

Definition closeSession (g : Gate) (s : Session) (w : World) : Gate * World :=
  let '(g1, w2) := closeSession_locked g s w in
  (g1, Session_Close s w2).

(** The part of [kick] that runs with the mutex held; the first component
    is [session, ok]. *)
Definition kick_locked (g : Gate) (sid : Z) (w : World)
  : option Session * Gate * World :=
  let w1 := emit EvLock w in
  let ok := sessions g !! sid in
  let g1 := match ok with
            | Some _ => set_sessions (delete sid (sessions g)) g
            | None => g
            end in
  (ok, g1, emit EvUnlock w1).

Definition kick (g : Gate) (sid : Z) (w : World) : Gate * World :=
  let '(ok, g1, w2) := kick_locked g sid w in
  match ok with
  | Some s => (g1, Session_Close s w2)
  | None => (g1, w2)
  end.

Definition Gate_Write (g : Gate) (msg : ClientMsg) (w : World) : Result World :=
  let w1 := emit EvRLock w in
  let ok := sessions g !! session msg in
  let w2 := emit EvRUnlock w1 in
  match ok with
  | Some s => Session_Write s (data msg) w2
  | None => Ok w2
  end.

(** ** The read loop *)

Inductive Control : Type := Continue | Return.

(** One turn of the loop in [Gate.serve]: read the two-byte head, decode
    the length, read the payload, push the message. *)
Definition serve_iter (g : Gate) (s : Session) (w : World)
  : Result (Control * Gate * World) :=
  '(head, e, w1) ← Session_ReadFull s 2 w;
  match e with
  | Some _ => let '(g', w') := closeSession g s w1 in Ok (Return, g', w')
  | None =>
    match BigEndian_Uint16 head with
    | None => Panic
    | Some len =>
      '(d, e2, w2) ← Session_ReadFull s (Z.to_nat len) w1;
      match e2 with
      | Some _ => let '(g', w') := closeSession g s w2 in Ok (Return, g', w')
      | None =>
        let msg := NewClientMsg (sessionid s) d in
        Ok (Continue, g, set_mailbox (fun q => q ++ [(source g, msg)]) w2)
      end
    end
  end.

(** ** The accept loop *)

(** The result of [listen.Accept()]: an error, or a new connection with
    what its peer will send and how its writes will go, and the choices
    the two pools make when its session is built. *)
Inductive AcceptResult : Type :=
| AcceptErr
| AcceptConn (inb : list ReadEvent) (wf : option (nat * error))
             (pickr pickw : option nat).

(** One turn of the loop in [Gate.start], with [sessionId] the loop's local
    counter.  The last component is the session whose worker was
    launched, if any. *)
Definition start_iter (a : AcceptResult) (sessionId : Z) (g : Gate) (w : World)
  : Control * Z * Gate * World * option Session :=
  if quit g then (Return, sessionId, g, emit EvListenClose w, None)
  else
    match a with
    | AcceptErr => (Continue, sessionId, g, w, None)
    | AcceptConn inb wf pickr pickw =>
      let c := length (conns w) in
      let w1 := set_conns (fun h => h ++ [mkConn false inb [] wf]) w in
      let w2 := if negb (maxclient g =? 0) && (maxclient g <=? clinetnum g)
                then conn_Close c w1 else w1 in
      let g1 := set_clinetnum (uint32_incr (clinetnum g)) g in
      let sid := uint32_incr sessionId in
      let '(s, w3) := newSession sid c pickr pickw w2 in
      let w4 := emit EvLock w3 in
      let g2 := set_sessions (<[sid := s]> (sessions g1)) g1 in
      let w5 := emit EvUnlock w4 in
      (Continue, sid, g2, w5, Some s)
    end.

(** ** The running gateway *)

(** A gate, the world, the goroutine running [start] (its [sessionId], or
    [None] once it has returned) and the goroutines running [serve]. *)
Record Sys : Type := mkSys {
  gate : Gate;
  world : World;
  acceptor : option Z;
  workers : list Session
}.

(** [Gate.open]: a failed [net.Listen] panics; otherwise the cap is stored
    and [start] is launched with its counter at 0. *)
Definition Gate_open (conf : Conf) (listen_ok : bool) (g : Gate) (w : World)
  : Result Sys :=
  if listen_ok
  then Ok (mkSys (set_maxclient (conf_maxclient conf) g) w (Some 0) [])
  else Panic.

Inductive Op : Type :=
| OpAccept (a : AcceptResult)
| OpServe (i : nat)
| OpWake (i : nat)
| OpKick (sid : Z)
| OpWrite (msg : ClientMsg)
| OpClose.

(** Whether connection [c] has been closed on this side. *)
Definition conn_closed (c : nat) (w : World) : bool :=
  match conns w !! c with
  | Some k => closed k
  | None => false
  end.

(** One operation on the running gateway.  [OpServe i] is a whole turn of
    worker [i], its reads issued now.  [OpWake i] is the end of a turn
    whose [Read] was issued earlier and was still blocked when the
    worker's connection was closed: that [Read] fails with an error that
    is not temporary, so [ReadFull] returns it and the worker runs
    [closeSession] and returns.  An accept turn when [start] has returned,
    or a turn of a worker that does not exist, changes nothing. *)
Definition step (o : Op) (st : Sys) : Result Sys :=
  match o with
  | OpAccept a =>
    match acceptor st with
    | None => Ok st
    | Some sessionId =>
      let '(ctl, sid, g, w, launched) := start_iter a sessionId (gate st) (world st) in
      Ok (mkSys g w
            (match ctl with Continue => Some sid | Return => None end)
            (match launched with
             | Some s => workers st ++ [s]
             | None => workers st
             end))
    end
  | OpServe i =>
    match workers st !! i with
    | None => Ok st
    | Some s =>
      '(ctl, g, w) ← serve_iter (gate st) s (world st);
      Ok (mkSys g w (acceptor st)
            (match ctl with
             | Continue => workers st
             | Return => delete i (workers st)
             end))
    end
  | OpWake i =>
    match workers st !! i with
    | None => Ok st
    | Some s =>
      if conn_closed (conn s) (world st) then
        match ReadFull_filter (Some (NetError false)) with
        | Some _ =>
          let '(g, w) := closeSession (gate st) s (world st) in
          Ok (mkSys g w (acceptor st) (delete i (workers st)))
        | None => Ok st
        end
      else Ok st
    end
  | OpKick sid =>
    let '(g, w) := kick (gate st) sid (world st) in
    Ok (mkSys g w (acceptor st) (workers st))
  | OpWrite msg =>
    w ← Gate_Write (gate st) msg (world st);
    Ok (mkSys (gate st) w (acceptor st) (workers st))
  | OpClose =>
    g ← Gate_close (gate st);
    Ok (mkSys g (world st) (acceptor st) (workers st))
  end.

(** A run: the operations in order, stopping at the first panic. *)
Fixpoint run (ops : list Op) (st : Sys) : Result Sys :=
  match ops with
  | [] => Ok st
  | o :: ops' => st' ← step o st; run ops' st'
  end.

(** ** Interleavings of [kick] and [closeSession]

    Each of the two runs in two atomic parts: the part under the mutex,
    then the call of [Close] after [Unlock]. *)

Inductive Thread : Type :=
| InKick (sid : Z)
| KickUnlocked (ok : option Session)
| InCloseSession (s : Session)
| CloseSessionUnlocked (s : Session)
| Finished.

Definition thread_step (t : Thread) (g : Gate) (w : World) : Thread * Gate * World :=
  match t with
  | InKick sid =>
    let '(ok, g1, w1) := kick_locked g sid w in (KickUnlocked ok, g1, w1)
  | KickUnlocked (Some s) => (Finished, g, Session_Close s w)
  | KickUnlocked None => (Finished, g, w)
  | InCloseSession s =>
    let '(g1, w1) := closeSession_locked g s w in (CloseSessionUnlocked s, g1, w1)
  | CloseSessionUnlocked s => (Finished, g, Session_Close s w)
  | Finished => (Finished, g, w)
  end.

(** Two threads under a schedule: [true] lets the first one take its next
    step, [false] the second. *)
Fixpoint interleave (sched : list bool) (t1 t2 : Thread) (g : Gate) (w : World)
  : Thread * Thread * Gate * World :=
  match sched with
  | [] => (t1, t2, g, w)
  | true :: sched' =>
    let '(t1', g', w') := thread_step t1 g w in interleave sched' t1' t2 g' w'
  | false :: sched' =>
    let '(t2', g', w') := thread_step t2 g w in interleave sched' t1 t2' g' w'
  end.

(** How many times [Session.Close] was entered for session [sid]. *)
Definition close_calls (sid : Z) (w : World) : nat :=
  length (filter (fun e => e = EvSessionClose sid) (trace w)).

(** ** The dispatch bridge *)

(** A value passed in [args ...interface{}]: a [*ClientMsg], possibly nil,
    or something of another type. *)
Inductive Value : Type :=
| VClientMsg (p : option ClientMsg)
| VOther.

(** [GateResponseDispatch]: [args[0]] panics on an empty [args], the
    type assertion to a [ClientMsg] pointer panics on another type, [GATES[source]] is
    nil for an address with no gate, and [gate.Write(msg)] dereferences
    its receiver and then [msg]. *)
Definition GateResponseDispatch (GATES : gmap Address Gate) (src : Address)
  (args : list Value) (w : World) : Result World :=
  match args with
  | [] => Panic
  | VOther :: _ => Panic
  | VClientMsg msg :: _ =>
    match GATES !! src with
    | None => Panic
    | Some g =>
      match msg with
      | None => Panic
      | Some m => Gate_Write g m w
      end
    end
  end.

(** [GateDispatch]: create and register the gate of an address on first
    use.  (The registration of the response handler belongs to the
    runtime.) *)
Definition GateDispatch (GATES : gmap Address Gate) (src : Address)
  : gmap Address Gate :=
  match GATES !! src with
  | Some _ => GATES
  | None => <[src := newGate src]> GATES
  end.

(** ** Frames, as a client builds them *)

(** A frame for payload [p]: its length on two bytes, big-endian, then
    [p]. *)
Definition encode_frame (p : list byte) : list byte :=
  BigEndian_PutUint16 (Z.of_nat (length p)) ++ p.

(** ** Counting in a run *)

(** The operations of a run that hand a new connection to the accept
    loop. *)
Definition is_accept_conn (o : Op) : bool :=
  match o with
  | OpAccept (AcceptConn _ _ _ _) => true
  | _ => false
  end.

Definition conns_accepted (ops : list Op) : nat :=
  length (filter (fun o => is_accept_conn o = true) ops).

(** ** Predicates and sample states used in the statements *)

(** The parts of the world other than the trace. *)
Definition same_objects (w w' : World) : Prop :=
  conns w' = conns w /\ readers w' = readers w /\ writers w' = writers w
  /\ bufioReaderPool w' = bufioReaderPool w
  /\ bufioWriterPool w' = bufioWriterPool w
  /\ mailbox w' = mailbox w.

(** The fields of the gate that only [start] and [close] write. *)
Definition same_counters (g g' : Gate) : Prop :=
  clinetnum g' = clinetnum g /\ maxclient g' = maxclient g
  /\ quit g' = quit g /\ source g' = source g.

(** The six ways to interleave the two parts of [kick] (true) with the two
    parts of [closeSession] (false). *)
Definition schedules : list (list bool) :=
  [ [true; true; false; false]; [true; false; true; false];
    [true; false; false; true]; [false; true; true; false];
    [false; true; false; true]; [false; false; true; true] ].

Definition kick_first (sched : list bool) : bool :=
  match sched with
  | b :: _ => b
  | [] => false
  end.

(** A gate just opened with no cap, and two accept turns: one that builds
    its session from fresh buffers, one that takes them from the pools. *)
Definition st_open : Sys := mkSys (newGate 7%nat) empty_world (Some 0) [].
Definition acc_plain : Op := OpAccept (AcceptConn [] None None None).
Definition acc_reuse : Op := OpAccept (AcceptConn [] None (Some 0%nat) (Some 0%nat)).

(** A gate with cap 1 that has one client already. *)
Definition st_full : Sys :=
  mkSys (mkGate 7%nat 1 1 false ∅) empty_world (Some 1) [].

(** One session on connection 0, with its buffers. *)
Definition s_one : Session := mkSession 1 0 (mkReadWriter 0 0).
Definition w_one : World :=
  mkWorld [mkConn false [] [] None] [mkReader (Some 0%nat)]
          [mkWriter (Some 0%nat) None []] [] [] [] [].
Definition g_one : Gate := mkGate 7%nat 1 0 false {[ 1 := s_one ]}.

(** The same with a peer that sends one byte, then a temporary error. *)
Definition w_temp : World :=
  mkWorld [mkConn false [Chunk [x07]; Fail (NetError true); Chunk [x09]] [] None]
          [mkReader (Some 0%nat)] [mkWriter (Some 0%nat) None []] [] [] [] [].

(** The same with the connection closed on this side, and with a transport
    that takes three more bytes. *)
Definition w_closed : World :=
  mkWorld [mkConn true [] [] None] [mkReader (Some 0%nat)]
          [mkWriter (Some 0%nat) None []] [] [] [] [].
Definition w_short : World :=
  mkWorld [mkConn false [] [] (Some (3%nat, NetError false))] [mkReader (Some 0%nat)]
          [mkWriter (Some 0%nat) None []] [] [] [] [].

(** The same with the frame of "hello" arriving in three reads, followed by
    one more byte. *)
Definition hello : list byte := [x68; x65; x6c; x6c; x6f].
Definition w_hello : World :=
  mkWorld [mkConn false [Chunk [x00]; Chunk [x05; x68; x65]; Chunk [x6c; x6c; x6f; x2a]]
                  [] None]
          [mkReader (Some 0%nat)] [mkWriter (Some 0%nat) None []] [] [] [] [].

(** A short run: a connection taken, its session kicked, another
    connection taken. *)
Definition ops_kick : list Op := [acc_plain; OpKick 1; acc_plain].

(** The state a run ends in, for runs that do not panic. *)
Definition final_state (r : Result Sys) : Sys :=
  match r with
  | Ok st => st
  | Panic => st_open
  end.
Definition st_kicked : Sys := final_state (run ops_kick st_open).

(** ** More of the program: the read loop as a loop, and pool sanity *)

(** [Gate.serve]: the loop, for at most [fuel] turns.  [Continue] in the
    result means the loop was still running when the turns ran out. *)
Fixpoint serve (fuel : nat) (g : Gate) (s : Session) (w : World)
  : Result (Control * Gate * World) :=
  match fuel with
  | O => Ok (Continue, g, w)
  | S fuel' =>
    '(ctl, g', w') ← serve_iter g s w;
    match ctl with
    | Return => Ok (Return, g', w')
    | Continue => serve fuel' g' s w'
    end
  end.

(** Every object in a pool has been allocated. *)
Definition pools_ok (w : World) : Prop :=
  (forall p, p ∈ bufioReaderPool w -> (p < length (readers w))%nat)
  /\ (forall p, p ∈ bufioWriterPool w -> (p < length (writers w))%nat).

(** Whether an accept turn in this state rejects the connection it gets. *)
Definition over_cap (g : Gate) : bool :=
  negb (maxclient g =? 0) && (maxclient g <=? clinetnum g).

(** A writer with a sticky error on an open connection. *)
Definition w_stuck : World :=
  mkWorld [mkConn false [] [] None] [mkReader (Some 0%nat)]
          [mkWriter (Some 0%nat) (Some ErrShortWrite) [x01]] [] [] [] [].

(** A peer that has sent nothing and closed. *)
Definition w_eof : World := w_one.

(** A registry with the gate of address 7. *)
Definition GATES_one : gmap Address Gate := {[ 7%nat := g_one ]}.

(** A gate with cap 1 and no client yet. *)
Definition st_cap1 : Sys :=
  mkSys (mkGate 7%nat 0 1 false ∅) empty_world (Some 0) [].

(** [w_short] after the buffered write of "hello", and after the flush
    that got three bytes out. *)
Definition w_short_written : World :=
  mkWorld [mkConn false [] [] (Some (3%nat, NetError false))] [mkReader (Some 0%nat)]
          [mkWriter (Some 0%nat) None hello] [] [] [] [].
Definition w_short_flushed : World :=
  mkWorld [mkConn false [] [x68; x65; x6c] (Some (0%nat, NetError false))]
          [mkReader (Some 0%nat)]
          [mkWriter (Some 0%nat) (Some (NetError false)) [x6c; x6f]] [] [] [] [].

(** A peer whose frame of "hello" is cut by a temporary error after two
    bytes of payload, and one whose connection fails for good. *)
Definition w_cut : World :=
  mkWorld [mkConn false [Chunk [x00; x05]; Chunk [x68; x65]; Fail (NetError true);
                         Chunk [x6c; x6c; x6f]] [] None]
          [mkReader (Some 0%nat)] [mkWriter (Some 0%nat) None []] [] [] [] [].
Definition w_reset : World :=
  mkWorld [mkConn false [Fail (NetError false); Chunk [x00]] [] None]
          [mkReader (Some 0%nat)] [mkWriter (Some 0%nat) None []] [] [] [] [].

(** * Properties *)

(** ** Bytes and the big-endian length *)

Lemma byte_to_Z_range (b : byte) : 0 <= byte_to_Z b < 256.
Proof.
  unfold byte_to_Z. pose proof (Byte.to_N_bounded b). lia.
Qed.

Lemma byte_to_of_Z (v : Z) : byte_to_Z (byte_of_Z v) = v mod 256.
Proof.
  unfold byte_to_Z, byte_of_Z.
  assert (Hr : 0 <= v mod 256 < 256) by (apply Z.mod_pos_bound; lia).
  destruct (Byte.of_N (Z.to_N (v mod 256))) as [b|] eqn:E.
  - apply Byte.to_of_N in E. rewrite E. lia.
  - apply Byte.of_N_None_iff in E. lia.
Qed.

Lemma lor_shiftl8 (lo hi : Z) :
  0 <= lo < 256 -> 0 <= hi -> Z.lor lo (Z.shiftl hi 8) = lo + hi * 256.
Proof.
  intros Hlo Hhi.
  assert (Hand : Z.land lo (Z.shiftl hi 8) = 0).
  { apply Z.bits_inj'. intros n Hn.
    rewrite Z.land_spec, Z.bits_0.
    destruct (Z.lt_ge_cases n 8) as [Hlt|Hge].
    - rewrite (Z.shiftl_spec_low hi 8 n Hlt). apply andb_false_r.
    - assert (Hb : Z.testbit lo n = false).
      { destruct (Z.eq_dec lo 0) as [->|Hz]; [apply Z.bits_0|].
        apply Z.bits_above_log2; [lia|].
        assert (Z.log2 lo < 8); [|lia].
        apply Z.log2_lt_pow2; lia. }
      rewrite Hb. reflexivity. }
  rewrite <- Z.lxor_lor by exact Hand.
  rewrite <- Z.add_nocarry_lxor by exact Hand.
  rewrite Z.shiftl_mul_pow2 by lia. reflexivity.
Qed.

Lemma Uint16_PutUint16 (v : Z) :
  0 <= v < uint16_mod -> BigEndian_Uint16 (BigEndian_PutUint16 v) = Some v.
Proof.
  unfold uint16_mod. intros Hv. unfold BigEndian_PutUint16, BigEndian_Uint16.
  f_equal. rewrite !byte_to_of_Z, Z.shiftr_div_pow2 by lia.
  change (2 ^ 8) with 256.
  assert (Hq : 0 <= v / 256 < 256).
  { split; [apply Z.div_pos; lia | apply Z.div_lt_upper_bound; lia]. }
  rewrite (Z.mod_small (v / 256)) by lia.
  rewrite lor_shiftl8.
  - pose proof (Z.div_mod v 256). lia.
  - apply Z.mod_pos_bound; lia.
  - lia.
Qed.

Lemma length_PutUint16 (v : Z) : length (BigEndian_PutUint16 v) = 2%nat.
Proof. reflexivity. Qed.

(** ** Reading from the transport *)

Lemma fill_buf_full (n : nat) (d : list byte) : length d = n -> fill_buf n d = d.
Proof.
  intros <-. unfold fill_buf, make_bytes.
  rewrite Nat.sub_diag. simpl. rewrite app_nil_r. apply firstn_all.
Qed.

Lemma read_loop_0 (evs : list ReadEvent) : read_loop evs 0 = ([], None, evs).
Proof. destruct evs; reflexivity. Qed.

(** While the chunks still to come hold at least [n] bytes, the loop
    returns exactly the next [n] bytes, however they are cut into reads,
    and leaves the others in place. *)
Lemma read_loop_chunks (cs : list (list byte)) (rest : list ReadEvent) (n : nat) :
  (n <= length (concat cs))%nat ->
  exists cs',
    read_loop (map Chunk cs ++ rest) n
    = (take n (concat cs), None, map Chunk cs' ++ rest)
    /\ concat cs' = drop n (concat cs).
Proof.
  revert n. induction cs as [|c cs IH]; intros n Hn.
  - simpl in Hn. assert (n = O) by lia. subst n.
    exists []. rewrite read_loop_0. split; reflexivity.
  - destruct n as [|m].
    + exists (c :: cs). rewrite read_loop_0. split; reflexivity.
    + cbn [map app read_loop concat].
      destruct (length c <=? S m)%nat eqn:Hc.
      * apply Nat.leb_le in Hc.
        destruct (IH (S m - length c)%nat) as (cs' & Hrd & Hcat).
        { cbn [concat] in Hn. rewrite length_app in Hn. lia. }
        exists cs'. rewrite Hrd. split.
        -- f_equal. f_equal. rewrite take_app, (take_ge c) by lia. reflexivity.
        -- rewrite Hcat, drop_app, (drop_ge c) by lia. reflexivity.
      * apply Nat.leb_gt in Hc.
        exists (drop (S m) c :: cs). split.
        -- f_equal. f_equal. rewrite take_app.
           replace (S m - length c)%nat with O by lia.
           rewrite take_0, app_nil_r. reflexivity.
        -- cbn [concat]. rewrite drop_app.
           replace (S m - length c)%nat with O by lia. reflexivity.
Qed.

Lemma io_ReadFull_chunks (cs : list (list byte)) (rest : list ReadEvent) (n : nat) :
  (n <= length (concat cs))%nat ->
  exists cs',
    io_ReadFull (map Chunk cs ++ rest) n
    = (take n (concat cs), None, map Chunk cs' ++ rest)
    /\ concat cs' = drop n (concat cs).
Proof.
  intros Hn. destruct (read_loop_chunks cs rest n Hn) as (cs' & Hrd & Hcat).
  exists cs'. split; [|exact Hcat].
  unfold io_ReadFull. rewrite Hrd.
  rewrite length_take, Nat.min_l by lia. rewrite Nat.leb_refl. reflexivity.
Qed.

(** ** The frame decoder *)

(** What a read through a bound reader on an open connection does when
    enough bytes are on their way. *)
Lemma Session_ReadFull_chunks (s : Session) (w : World) (c : nat) (k : Conn)
  (cs : list (list byte)) (rest : list ReadEvent) (n : nat) :
  readers w !! Reader (brw s) = Some (mkReader (Some c)) ->
  conns w !! c = Some k ->
  closed k = false ->
  inbound k = map Chunk cs ++ rest ->
  (n <= length (concat cs))%nat ->
  exists cs' w',
    Session_ReadFull s n w = Ok (take n (concat cs), None, w')
    /\ concat cs' = drop n (concat cs)
    /\ readers w' = readers w
    /\ mailbox w' = mailbox w
    /\ conns w' !! c = Some (mkConn false (map Chunk cs' ++ rest) (outbound k) (wfail k)).
Proof.
  intros Hr Hc Hopen Hin Hn.
  unfold Session_ReadFull, bufio_ReadFull. rewrite Hr.
  destruct n as [|m].
  - exists cs, w. cbn. repeat split; try reflexivity.
    rewrite Hc. destruct k; cbn in *; subst; reflexivity.
  - cbn [rd]. rewrite Hc, Hopen, Hin.
    destruct (io_ReadFull_chunks cs rest (S m) Hn) as (cs' & Hrd & Hcat).
    rewrite Hrd. cbn [mbind Result_bind].
    eexists cs', _. split; [|split; [exact Hcat|]].
    + rewrite fill_buf_full; [reflexivity|].
      rewrite length_take. lia.
    + cbn. repeat split; try reflexivity.
      apply list_lookup_insert_eq. eapply lookup_lt_Some, Hc.
Qed.

Lemma take_encode_frame (p tail : list byte) :
  take 2 (encode_frame p ++ tail) = BigEndian_PutUint16 (Z.of_nat (length p)).
Proof. reflexivity. Qed.

Lemma drop_encode_frame (p tail : list byte) :
  drop 2 (encode_frame p ++ tail) = p ++ tail.
Proof. reflexivity. Qed.

(** C7.  A frame built from a payload of at most 65535 bytes, arriving on
    an open connection in any number of reads and followed by anything,
    is decoded by one turn of the read loop into exactly that payload:
    the turn pushes the message with the payload and the session's id and
    leaves what followed the frame on the connection. *)
Theorem frame_round_trip (g : Gate) (s : Session) (w : World) (c : nat) (k : Conn)
  (p tail : list byte) (cs : list (list byte)) (rest : list ReadEvent) :
  Z.of_nat (length p) <= 65535 ->
  readers w !! Reader (brw s) = Some (mkReader (Some c)) ->
  conns w !! c = Some k ->
  closed k = false ->
  inbound k = map Chunk cs ++ rest ->
  concat cs = encode_frame p ++ tail ->
  exists w' cs',
    serve_iter g s w = Ok (Continue, g, w')
    /\ mailbox w' = mailbox w ++ [(source g, NewClientMsg (sessionid s) p)]
    /\ conns w' !! c = Some (mkConn false (map Chunk cs' ++ rest) (outbound k) (wfail k))
    /\ concat cs' = tail.
Proof.
  intros Hp Hr Hc Hopen Hin Hcat.
  assert (Hlen : length (concat cs) = (2 + length p + length tail)%nat).
  { rewrite Hcat. unfold encode_frame. rewrite !length_app, length_PutUint16. lia. }
  destruct (Session_ReadFull_chunks s w c k cs rest 2 Hr Hc Hopen Hin)
    as (cs1 & w1 & Hrd1 & Hcat1 & Hr1 & Hm1 & Hc1); [lia|].
  unfold serve_iter. rewrite Hrd1. cbn [mbind Result_bind].
  rewrite Hcat, take_encode_frame, Uint16_PutUint16 by (unfold uint16_mod; lia).
  rewrite Nat2Z.id.
  rewrite Hcat, drop_encode_frame in Hcat1.
  rewrite <- Hr1 in Hr.
  destruct (Session_ReadFull_chunks s w1 c _ cs1 rest (length p) Hr Hc1 eq_refl eq_refl)
    as (cs2 & w2 & Hrd2 & Hcat2 & Hr2 & Hm2 & Hc2).
  { rewrite Hcat1, length_app. lia. }
  rewrite Hrd2. cbn [mbind Result_bind].
  rewrite Hcat1, take_app_length.
  exists (set_mailbox (fun q => q ++ [(source g, NewClientMsg (sessionid s) p)]) w2), cs2.
  repeat split.
  - cbn. rewrite Hm2, Hm1. reflexivity.
  - exact Hc2.
  - rewrite Hcat2, Hcat1, drop_app_length. reflexivity.
Qed.

Lemma frame_round_trip_witness :
  exists w' cs',
    serve_iter g_one s_one w_hello = Ok (Continue, g_one, w')
    /\ mailbox w' = mailbox w_hello ++ [(source g_one, NewClientMsg (sessionid s_one) hello)]
    /\ conns w' !! 0%nat = Some (mkConn false (map Chunk cs' ++ []) [] None)
    /\ concat cs' = [x2a].
Proof.
  apply (frame_round_trip g_one s_one w_hello 0
           (mkConn false [Chunk [x00]; Chunk [x05; x68; x65]; Chunk [x6c; x6c; x6f; x2a]]
                   [] None)
           hello [x2a] [[x00]; [x05; x68; x65]; [x6c; x6c; x6f; x2a]] []);
    [cbn; lia | reflexivity ..].
Defined.

(** ** The errors of a read *)

Lemma ReadFull_filter_spec (e0 : option error) (e : error) :
  ReadFull_filter e0 = Some e <-> e0 = Some e /\ non_recoverable e.
Proof.
  unfold ReadFull_filter, non_recoverable. split.
  - destruct e0 as [e1|]; [|discriminate].
    destruct (as_net_Error e1) as [[|]|] eqn:E; try discriminate.
    intros [= <-]. auto.
  - intros [-> H]. rewrite H. reflexivity.
Qed.

(** C3.  [Session.ReadFull] returns an error exactly when the underlying
    [io.ReadFull] failed with a transport error that is not recoverable (a
    [net.Error] whose [Temporary()] is false), and then it returns that
    error.  Any other error of the underlying read, a temporary transport
    error among them, gives nil, whatever part of the buffer was filled. *)
Theorem Session_ReadFull_error (s : Session) (n : nat) (w w' : World)
  (d : list byte) (e0 : option error) :
  bufio_ReadFull (Reader (brw s)) n w = Ok (d, e0, w') ->
  exists r,
    Session_ReadFull s n w = Ok (fill_buf n d, r, w')
    /\ (forall e, r = Some e <-> e0 = Some e /\ non_recoverable e)
    /\ (forall e, e0 = Some e -> ~ non_recoverable e -> r = None).
Proof.
  intros H. exists (ReadFull_filter e0).
  unfold Session_ReadFull. rewrite H. split; [reflexivity|]. split.
  - intros e. apply ReadFull_filter_spec.
  - intros e -> Hn. destruct (ReadFull_filter (Some e)) as [e'|] eqn:E; [|reflexivity].
    apply ReadFull_filter_spec in E as [[= <-] Hnr]. contradiction.
Qed.

Lemma Session_ReadFull_error_witness :
  exists r,
    Session_ReadFull s_one 2 w_temp
    = Ok (fill_buf 2 [x07], r,
          set_conns (fun h => <[0%nat := mkConn false [Chunk [x09]] [] None]> h) w_temp)
    /\ (forall e, r = Some e <-> Some (NetError true) = Some e /\ non_recoverable e)
    /\ (forall e, Some (NetError true) = Some e -> ~ non_recoverable e -> r = None).
Proof.
  apply (Session_ReadFull_error s_one 2 w_temp _ [x07] (Some (NetError true))).
  reflexivity.
Defined.

(** ** The errors of a write *)



(** On a closed connection the flush fails and [Session.Write] returns all
    the same. *)
Example Session_Write_closed_conn :
  exists w1 w2,
    bufio_Write 0 [x01] w_closed = Ok (1%nat, None, w1)
    /\ bufio_Flush 0 w1 = Ok (Some (NetError false), w2)
    /\ Session_Write s_one [x01] w_closed = Ok w2.
Proof. eexists _, _. repeat split; reflexivity. Qed.

(** A transport that takes three of five bytes: the flush fails, three
    bytes are out, and [Session.Write] returns all the same. *)
Example Session_Write_short :
  exists w1 w2 k,
    bufio_Write 0 hello w_short = Ok (5%nat, None, w1)
    /\ bufio_Flush 0 w1 = Ok (Some (NetError false), w2)
    /\ Session_Write s_one hello w_short = Ok w2
    /\ conns w2 !! 0%nat = Some k
    /\ outbound k = [x68; x65; x6c].
Proof. eexists _, _, _. repeat split; reflexivity. Qed.

(** After [Session.Close] the writer has been reset to a nil stream: a
    write of even one byte panics in the flush. *)
Example Session_Write_after_Close :
  Session_Write s_one [x01] (Session_Close s_one w_one) = Panic.
Proof. reflexivity. Qed.

(** ** [kick] and [Gate.Write] *)

(** C5.  [kick] of an id that is in the map removes the entry between
    [Lock] and [Unlock] and closes the session after [Unlock]: the
    connection is closed, the reader and the writer are back in their
    pools, and a [Gate.Write] for that id then finds nothing and writes
    nothing.  [kick] of an id that is not in the map leaves the gate and
    every object as they were. *)
Theorem kick_spec (g : Gate) (sid : Z) (w : World) :
  match sessions g !! sid with
  | Some s =>
    exists w',
      kick g sid w = (set_sessions (delete sid (sessions g)) g, w')
      /\ w' = Session_Close s (emit EvUnlock (emit EvLock w))
      /\ trace w' = trace w ++ [EvLock; EvUnlock; EvSessionClose (sessionid s);
                               EvConnClose (conn s)]
      /\ (forall k, conns w !! conn s = Some k ->
                    conns w' !! conn s
                    = Some (mkConn true (inbound k) (outbound k) (wfail k)))
      /\ bufioReaderPool w' = Reader (brw s) :: bufioReaderPool w
      /\ bufioWriterPool w' = Writer (brw s) :: bufioWriterPool w
      /\ (forall msg, session msg = sid ->
            exists w'',
              Gate_Write (set_sessions (delete sid (sessions g)) g) msg w' = Ok w''
              /\ same_objects w' w''
              /\ trace w'' = trace w' ++ [EvRLock; EvRUnlock])
  | None =>
    exists w',
      kick g sid w = (g, w')
      /\ same_objects w w'
      /\ trace w' = trace w ++ [EvLock; EvUnlock]
  end.
Proof.
  unfold kick, kick_locked.
  destruct (sessions g !! sid) as [s|] eqn:Hs.
  - eexists. split; [reflexivity|]. split; [reflexivity|].
    split; [cbn; rewrite <- !app_assoc; reflexivity|].
    split; [|split; [reflexivity|split; [reflexivity|]]].
    + intros k Hk. cbn. rewrite list_lookup_alter_eq, Hk. reflexivity.
    + intros msg <-. unfold Gate_Write. cbn [sessions set_sessions].
      rewrite lookup_delete_eq. eexists. split; [reflexivity|].
      unfold same_objects. cbn. rewrite <- !app_assoc. tauto.
  - eexists. split; [reflexivity|]. unfold same_objects. cbn.
    rewrite <- app_assoc. tauto.
Qed.

Lemma kick_spec_witness :
  exists w',
    kick g_one 1 w_one = (set_sessions (delete 1 (sessions g_one)) g_one, w')
    /\ trace w' = [EvLock; EvUnlock; EvSessionClose 1; EvConnClose 0%nat]
    /\ conns w' !! 0%nat = Some (mkConn true [] [] None)
    /\ bufioReaderPool w' = [0%nat]
    /\ bufioWriterPool w' = [0%nat].
Proof.
  pose proof (kick_spec g_one 1 w_one) as H.
  change (sessions g_one !! 1) with (Some s_one) in H.
  destruct H as (w' & Hk & _ & Ht & Hc & Hr & Hw & _).
  exists w'. split; [exact Hk|]. split; [exact Ht|].
  split; [exact (Hc _ eq_refl)|]. split; [exact Hr | exact Hw].
Defined.

(** C6.  [Gate.Write] for an id that is not in the map returns normally and
    changes nothing: the gate (its map and its count), the accept loop, the
    workers and every connection, buffer and pool are as before; only the
    read lock was taken and released. *)
Theorem Gate_Write_absent (st : Sys) (msg : ClientMsg) :
  sessions (gate st) !! session msg = None ->
  exists st',
    step (OpWrite msg) st = Ok st'
    /\ gate st' = gate st
    /\ acceptor st' = acceptor st
    /\ workers st' = workers st
    /\ same_objects (world st) (world st')
    /\ trace (world st') = trace (world st) ++ [EvRLock; EvRUnlock].
Proof.
  intros H. unfold step, Gate_Write. rewrite H. cbn [mbind Result_bind].
  eexists. split; [reflexivity|]. cbn. rewrite <- app_assoc.
  unfold same_objects. cbn. tauto.
Qed.

Lemma Gate_Write_absent_witness :
  exists st',
    step (OpWrite (mkClientMsg 5 [x01])) (mkSys g_one w_one (Some 1) [s_one]) = Ok st'
    /\ gate st' = g_one
    /\ acceptor st' = Some 1
    /\ workers st' = [s_one]
    /\ same_objects w_one (world st')
    /\ trace (world st') = [EvRLock; EvRUnlock].
Proof.
  apply (Gate_Write_absent (mkSys g_one w_one (Some 1) [s_one]) (mkClientMsg 5 [x01])).
  reflexivity.
Defined.

(** ** The response handler *)

(** C8.  With no gate registered for the source address,
    [GateResponseDispatch] panics whatever its arguments: the envelope is
    never dropped with a normal return. *)
Theorem GateResponseDispatch_no_gate (GATES : gmap Address Gate) (src : Address)
  (args : list Value) (w : World) :
  GATES !! src = None ->
  GateResponseDispatch GATES src args w = Panic.
Proof.
  intros H. unfold GateResponseDispatch.
  destruct args as [|[msg|] args]; try reflexivity.
  rewrite H. reflexivity.
Qed.

Lemma GateResponseDispatch_no_gate_witness :
  GateResponseDispatch (GateDispatch ∅ 7%nat) 8%nat
    [VClientMsg (Some (mkClientMsg 1 [x01]))] empty_world = Panic.
Proof.
  apply (GateResponseDispatch_no_gate (GateDispatch ∅ 7%nat) 8%nat). reflexivity.
Defined.

(** ** The accept loop *)

Lemma newSession_spec (sid : Z) (c : nat) (pickr pickw : option nat) (w : World) :
  exists br bw w',
    newSession sid c pickr pickw w = (mkSession sid c (mkReadWriter br bw), w')
    /\ conns w' = conns w
    /\ trace w' = trace w
    /\ mailbox w' = mailbox w.
Proof.
  unfold newSession, newBufioReader, newBufioWriter.
  destruct (pool_Get pickr (bufioReaderPool w)) as [[br|] pr];
    cbn [bufioWriterPool set_readers set_bufioReaderPool];
    destruct (pool_Get pickw (bufioWriterPool w)) as [[bw|] pw];
    eexists _, _, _; (split; [reflexivity|]); cbn; auto.
Qed.

(** What a turn of the accept loop that gets a connection does. *)
Lemma accept_conn_spec (st : Sys) (sessionId : Z)
  (inb : list ReadEvent) (wf : option (nat * error)) (pickr pickw : option nat) :
  acceptor st = Some sessionId ->
  quit (gate st) = false ->
  exists st' s,
    step (OpAccept (AcceptConn inb wf pickr pickw)) st = Ok st'
    /\ clinetnum (gate st') = uint32_incr (clinetnum (gate st))
    /\ maxclient (gate st') = maxclient (gate st)
    /\ quit (gate st') = false
    /\ acceptor st' = Some (uint32_incr sessionId)
    /\ sessionid s = uint32_incr sessionId
    /\ conn s = length (conns (world st))
    /\ sessions (gate st') = <[uint32_incr sessionId := s]> (sessions (gate st))
    /\ workers st' = workers st ++ [s].
Proof.
  intros Ha Hq. unfold step. rewrite Ha. unfold start_iter. rewrite Hq.
  match goal with |- context [newSession ?a ?b ?c ?d ?e] =>
    destruct (newSession_spec a b c d e) as (br & bw & w' & Hns & _);
    rewrite Hns end.
  eexists _, _. split; [reflexivity|]. cbn. rewrite Hq. repeat split; reflexivity.
Qed.

(** C1.  With a cap that is not zero and a count at or above it, an accept
    turn closes the new connection and goes on all the same: the count is
    incremented, the next session id is taken, a session is built over the
    closed connection, put in the map under that id, and its worker is
    launched. *)
Theorem accept_over_cap (st : Sys) (sessionId : Z)
  (inb : list ReadEvent) (wf : option (nat * error)) (pickr pickw : option nat) :
  acceptor st = Some sessionId ->
  quit (gate st) = false ->
  maxclient (gate st) <> 0 ->
  maxclient (gate st) <= clinetnum (gate st) ->
  let c := length (conns (world st)) in
  let sid := uint32_incr sessionId in
  exists st' s,
    step (OpAccept (AcceptConn inb wf pickr pickw)) st = Ok st'
    /\ conns (world st') = conns (world st) ++ [mkConn true inb [] wf]
    /\ trace (world st') = trace (world st) ++ [EvConnClose c; EvLock; EvUnlock]
    /\ clinetnum (gate st') = uint32_incr (clinetnum (gate st))
    /\ acceptor st' = Some sid
    /\ sessionid s = sid
    /\ conn s = c
    /\ sessions (gate st') = <[sid := s]> (sessions (gate st))
    /\ workers st' = workers st ++ [s].
Proof.
  intros Ha Hq Hm Hge c sid. unfold step. rewrite Ha.
  unfold start_iter. rewrite Hq.
  assert (Hcond : negb (maxclient (gate st) =? 0)
                  && (maxclient (gate st) <=? clinetnum (gate st)) = true).
  { apply andb_true_iff. split.
    - apply negb_true_iff, Z.eqb_neq, Hm.
    - apply Z.leb_le, Hge. }
  rewrite Hcond.
  match goal with |- context [newSession ?a ?b ?c ?d ?e] =>
    destruct (newSession_spec a b c d e) as (br & bw & w' & Hns & Hc & Ht & _);
    rewrite Hns end.
  eexists _, _. split; [reflexivity|]. cbn.
  rewrite Hc, Ht. cbn.
  rewrite <- !app_assoc. cbn.
  repeat split; try reflexivity.
  rewrite (alter_app_r_alt _ _ _ (length (conns (world st)))) by lia.
  rewrite Nat.sub_diag. reflexivity.
Qed.

Lemma accept_over_cap_witness :
  exists st' s,
    step (OpAccept (AcceptConn [] None None None)) st_full = Ok st'
    /\ conns (world st') = [mkConn true [] [] None]
    /\ trace (world st') = [EvConnClose 0%nat; EvLock; EvUnlock]
    /\ clinetnum (gate st') = uint32_incr 1
    /\ acceptor st' = Some (uint32_incr 1)
    /\ sessionid s = uint32_incr 1
    /\ conn s = 0%nat
    /\ sessions (gate st') = <[uint32_incr 1 := s]> ∅
    /\ workers st' = [s].
Proof.
  apply (accept_over_cap st_full 1 [] None None None);
    [reflexivity | reflexivity | discriminate | cbn; lia].
Defined.

(** ** The connection count *)

Lemma closeSession_counters (g : Gate) (s : Session) (w : World) :
  same_counters g (closeSession g s w).1.
Proof. unfold same_counters. cbn. auto. Qed.

Lemma kick_counters (g : Gate) (sid : Z) (w : World) :
  same_counters g (kick g sid w).1.
Proof.
  unfold same_counters, kick, kick_locked.
  destruct (sessions g !! sid); cbn; auto.
Qed.

Lemma serve_iter_counters (g g' : Gate) (s : Session) (w w' : World) (ctl : Control) :
  serve_iter g s w = Ok (ctl, g', w') -> same_counters g g'.
Proof.
  unfold serve_iter. intros H.
  destruct (Session_ReadFull s 2 w) as [[[head e] w1]|]; [|discriminate].
  cbn [mbind Result_bind] in H.
  destruct e as [e|].
  { pose proof (closeSession_counters g s w1) as Hc.
    destruct (closeSession g s w1) as [g1 w1']. injection H as _ <- _. exact Hc. }
  destruct (BigEndian_Uint16 head) as [len|]; [|discriminate].
  destruct (Session_ReadFull s (Z.to_nat len) w1) as [[[d e2] w2]|]; [|discriminate].
  cbn [mbind Result_bind] in H.
  destruct e2 as [e2|].
  { pose proof (closeSession_counters g s w2) as Hc.
    destruct (closeSession g s w2) as [g1 w2']. injection H as _ <- _. exact Hc. }
  injection H as _ <- _. unfold same_counters. auto.
Qed.

(** The connection count after one operation. *)
Lemma step_clinetnum (o : Op) (st st' : Sys) :
  step o st = Ok st' ->
  clinetnum (gate st') = clinetnum (gate st)
  \/ (is_accept_conn o = true
      /\ clinetnum (gate st') = uint32_incr (clinetnum (gate st))).
Proof.
  destruct o as [a|i|i|sid|msg|]; cbn [step is_accept_conn].
  - destruct (acceptor st) as [k|] eqn:Ha; [|intros [= <-]; auto].
    destruct (quit (gate st)) eqn:Hq.
    { unfold start_iter. rewrite Hq. intros [= <-]. auto. }
    destruct a as [|inb wf pickr pickw].
    { unfold start_iter. rewrite Hq. intros [= <-]. auto. }
    destruct (accept_conn_spec st k inb wf pickr pickw Ha Hq)
      as (st1 & s & Hst & Hcl & _).
    unfold step in Hst. rewrite Ha in Hst. rewrite Hst. intros [= <-]. auto.
  - destruct (workers st !! i) as [s|]; [|intros [= <-]; auto].
    destruct (serve_iter (gate st) s (world st)) as [[[ctl g] w]|] eqn:Hs;
      [|discriminate].
    intros [= <-]. left. apply (serve_iter_counters _ _ _ _ _ _ Hs).
  - destruct (workers st !! i) as [s|]; [|intros [= <-]; auto].
    destruct (conn_closed (conn s) (world st)); [|intros [= <-]; auto].
    cbn. intros [= <-]. auto.
  - pose proof (kick_counters (gate st) sid (world st)) as Hk.
    destruct (kick (gate st) sid (world st)) as [g w]. intros [= <-].
    left. apply Hk.
  - destruct (Gate_Write (gate st) msg (world st)) as [w|]; [|discriminate].
    intros [= <-]. auto.
  - unfold Gate_close. destruct (quit (gate st)); [discriminate|].
    intros [= <-]. auto.
Qed.

Lemma uint32_incr_range (x : Z) : 0 <= uint32_incr x < uint32_mod.
Proof. unfold uint32_incr, uint32_mod. apply Z.mod_pos_bound. lia. Qed.

Lemma uint32_incr_small (x : Z) :
  0 <= x < uint32_mod - 1 -> uint32_incr x = x + 1.
Proof. unfold uint32_incr, uint32_mod. intros H. apply Z.mod_small. lia. Qed.

Lemma conns_accepted_cons (o : Op) (ops : list Op) :
  conns_accepted (o :: ops)
  = ((if is_accept_conn o then 1 else 0) + conns_accepted ops)%nat.
Proof.
  unfold conns_accepted. rewrite filter_cons.
  destruct (is_accept_conn o); [rewrite decide_True by done | rewrite decide_False by done];
    reflexivity.
Qed.

Lemma conns_accepted_snoc (ops : list Op) (o : Op) :
  conns_accepted (ops ++ [o])
  = (conns_accepted ops + (if is_accept_conn o then 1 else 0))%nat.
Proof.
  induction ops as [|o' ops IH].
  - cbn [app]. rewrite conns_accepted_cons. unfold conns_accepted. cbn. lia.
  - cbn [app]. rewrite !conns_accepted_cons, IH. lia.
Qed.

(** C2 (amended).  Over a run that returns, the connection count moves only
    when the accept loop takes a connection, and then by one: as long as
    the connections taken do not carry it past 2^32 - 1 it never decreases,
    whatever sessions are closed or kicked in between, and it grows by at
    most the number of connections taken. *)
Theorem clinetnum_bounded_run (ops : list Op) (st st' : Sys) :
  run ops st = Ok st' ->
  0 <= clinetnum (gate st) ->
  clinetnum (gate st) + Z.of_nat (conns_accepted ops) < uint32_mod ->
  clinetnum (gate st) <= clinetnum (gate st')
  /\ clinetnum (gate st') <= clinetnum (gate st) + Z.of_nat (conns_accepted ops).
Proof.
  revert st. induction ops as [|o ops IH]; intros st Hrun H0 Hb.
  - injection Hrun as <-. cbn. lia.
  - cbn [run] in Hrun.
    destruct (step o st) as [st1|] eqn:Hstep; [|discriminate].
    cbn [mbind Result_bind] in Hrun.
    rewrite conns_accepted_cons in Hb |- *.
    destruct (step_clinetnum o st st1 Hstep) as [Heq|[Hacc Hinc]].
    + destruct (IH st1 Hrun) as [Hlo Hhi]; [lia| |].
      * destruct (is_accept_conn o); lia.
      * destruct (is_accept_conn o); lia.
    + rewrite Hacc in Hb |- *.
      rewrite uint32_incr_small in Hinc by lia.
      destruct (IH st1 Hrun) as [Hlo Hhi]; lia.
Qed.

Lemma clinetnum_bounded_run_witness :
  clinetnum (gate st_open) <= clinetnum (gate st_kicked)
  /\ clinetnum (gate st_kicked)
     <= clinetnum (gate st_open) + Z.of_nat (conns_accepted ops_kick).
Proof.
  apply (clinetnum_bounded_run ops_kick st_open st_kicked);
    [vm_compute; reflexivity | discriminate | vm_compute; reflexivity].
Defined.

Example st_open_is_opened :
  Gate_open (mkConf 0 0) true (newGate 7%nat) empty_world = Ok st_open.
Proof. reflexivity. Qed.

(** [n] connections accepted in a row. *)
Lemma run_accepts (inb : list ReadEvent) (wf : option (nat * error))
  (pickr pickw : option nat) (n : nat) (st : Sys) (k : Z) :
  acceptor st = Some k ->
  quit (gate st) = false ->
  0 <= k < uint32_mod ->
  0 <= clinetnum (gate st) < uint32_mod ->
  exists st',
    run (replicate n (OpAccept (AcceptConn inb wf pickr pickw))) st = Ok st'
    /\ acceptor st' = Some ((k + Z.of_nat n) mod uint32_mod)
    /\ clinetnum (gate st') = (clinetnum (gate st) + Z.of_nat n) mod uint32_mod
    /\ quit (gate st') = false.
Proof.
  revert st k. induction n as [|n IH]; intros st k Ha Hq Hk Hc.
  - exists st. cbn [replicate run]. rewrite !Z.add_0_r, !Z.mod_small by assumption.
    auto.
  - destruct (accept_conn_spec st k inb wf pickr pickw Ha Hq)
      as (st1 & s & Hst & Hcl & _ & Hq1 & Ha1 & _).
    destruct (IH st1 (uint32_incr k) Ha1 Hq1 (uint32_incr_range k))
      as (st' & Hrun & Ha' & Hc' & Hq').
    { rewrite Hcl. apply uint32_incr_range. }
    exists st'. cbn [replicate run]. rewrite Hst. cbn [mbind Result_bind].
    split; [exact Hrun|]. rewrite Ha', Hc', Hcl. unfold uint32_incr.
    rewrite !Zplus_mod_idemp_l, Nat2Z.inj_succ.
    replace (k + 1 + Z.of_nat n) with (k + Z.succ (Z.of_nat n)) by lia.
    replace (clinetnum (gate st) + 1 + Z.of_nat n)
      with (clinetnum (gate st) + Z.succ (Z.of_nat n)) by lia.
    auto.
Qed.

Lemma count_wraps_after (n : nat) :
  Z.of_nat n = uint32_mod - 1 ->
  exists st st',
    run (replicate n acc_plain) st_open = Ok st
    /\ clinetnum (gate st) = uint32_mod - 1
    /\ step acc_plain st = Ok st'
    /\ clinetnum (gate st') = 0
    /\ clinetnum (gate st') < clinetnum (gate st).
Proof.
  intros Hn.
  assert (Hr : 0 <= 0 < uint32_mod) by (split; reflexivity).
  destruct (run_accepts [] None None None n st_open 0 eq_refl eq_refl Hr Hr)
    as (st & Hrun & Ha & Hc & Hq).
  rewrite Hn in Ha, Hc.
  change (clinetnum (gate st_open)) with 0 in Hc.
  change ((0 + (uint32_mod - 1)) mod uint32_mod) with (uint32_mod - 1) in Ha, Hc.
  destruct (accept_conn_spec st _ [] None None None Ha Hq)
    as (st' & s & Hst & Hcl & _).
  exists st, st'. split; [exact Hrun|]. split; [exact Hc|]. split; [exact Hst|].
  rewrite Hcl, Hc. split; reflexivity.
Qed.

(** C2, as stated, fails: after 2^32 - 1 connections the count is
    2^32 - 1, and the next accept turn takes it to 0. *)
Lemma clinetnum_wraps_to_zero :
  exists st st',
    run (replicate (Z.to_nat (uint32_mod - 1)) acc_plain) st_open = Ok st
    /\ clinetnum (gate st) = uint32_mod - 1
    /\ step acc_plain st = Ok st'
    /\ clinetnum (gate st') = 0
    /\ clinetnum (gate st') < clinetnum (gate st).
Proof.
  apply count_wraps_after. apply Z2Nat.id. discriminate.
Qed.

(** ** Session ids *)

(** The counter of the accept loop after one operation: it moves only when
    a connection is taken, and a loop that has returned stays so. *)
Lemma step_acceptor (o : Op) (st st' : Sys) (k' : Z) :
  step o st = Ok st' ->
  acceptor st' = Some k' ->
  quit (gate st') = false ->
  exists k,
    acceptor st = Some k
    /\ quit (gate st) = false
    /\ k' = if is_accept_conn o then uint32_incr k else k.
Proof.
  destruct o as [a|i|i|sid|msg|]; cbn [step is_accept_conn].
  - destruct (acceptor st) as [k|] eqn:Ha; [|intros [= <-]; congruence].
    destruct (quit (gate st)) eqn:Hq.
    { unfold start_iter. rewrite Hq. intros [= <-]. discriminate. }
    destruct a as [|inb wf pickr pickw].
    { unfold start_iter. rewrite Hq. intros [= <-]. cbn. intros [= <-] _. eauto. }
    destruct (accept_conn_spec st k inb wf pickr pickw Ha Hq)
      as (st1 & s & Hst & _ & _ & _ & Ha1 & _).
    unfold step in Hst. rewrite Ha in Hst. rewrite Hst. intros [= <-].
    rewrite Ha1. intros [= <-] _. eauto.
  - destruct (workers st !! i) as [s|]; [|intros [= <-]; eauto].
    destruct (serve_iter (gate st) s (world st)) as [[[ctl g] w]|] eqn:Hs;
      [|discriminate].
    intros [= <-]. cbn. intros Ha Hq.
    destruct (serve_iter_counters _ _ _ _ _ _ Hs) as (_ & _ & Hq' & _).
    exists k'. rewrite <- Hq'. auto.
  - destruct (workers st !! i) as [s|]; [|intros [= <-]; eauto].
    destruct (conn_closed (conn s) (world st)); [|intros [= <-]; eauto].
    cbn. intros [= <-]. cbn. eauto.
  - pose proof (kick_counters (gate st) sid (world st)) as (_ & _ & Hk & _).
    destruct (kick (gate st) sid (world st)) as [g w]. intros [= <-]. cbn.
    cbn in Hk. rewrite Hk. eauto.
  - destruct (Gate_Write (gate st) msg (world st)) as [w|]; [|discriminate].
    intros [= <-]. cbn. eauto.
  - unfold Gate_close. destruct (quit (gate st)); [discriminate|].
    intros [= <-]. cbn. discriminate.
Qed.

(** While the accept loop is still accepting, its counter is the number of
    connections taken so far, modulo 2^32. *)
Lemma run_acceptor (ops : list Op) (st st' : Sys) (k0 k : Z) :
  run ops st = Ok st' ->
  acceptor st = Some k0 ->
  0 <= k0 < uint32_mod ->
  acceptor st' = Some k ->
  quit (gate st') = false ->
  k = (k0 + Z.of_nat (conns_accepted ops)) mod uint32_mod.
Proof.
  revert st st' k0 k. induction ops as [|o ops IH] using rev_ind;
    intros st st' k0 k Hrun Ha0 Hk0 Ha Hq.
  - injection Hrun as <-. cbn. rewrite Z.add_0_r, Z.mod_small by assumption.
    congruence.
  - assert (Hsplit : exists st1, run ops st = Ok st1 /\ step o st1 = Ok st').
    { clear -Hrun. revert st Hrun. induction ops as [|o' ops IH]; intros st Hrun.
      - cbn in Hrun. destruct (step o st) as [s1|] eqn:E; [|discriminate].
        cbn in Hrun. exists st. split; [reflexivity|congruence].
      - cbn [app run] in Hrun. destruct (step o' st) as [s1|] eqn:E; [|discriminate].
        cbn [mbind Result_bind] in Hrun. destruct (IH s1 Hrun) as (st1 & H1 & H2).
        exists st1. cbn [run]. rewrite E. auto. }
    destruct Hsplit as (st1 & Hrun1 & Hstep).
    destruct (step_acceptor o st1 st' k Hstep Ha Hq) as (k1 & Ha1 & Hq1 & Hk).
    specialize (IH st st1 k0 k1 Hrun1 Ha0 Hk0 Ha1 Hq1).
    rewrite conns_accepted_snoc. subst k k1. destruct (is_accept_conn o).
    + unfold uint32_incr. rewrite Zplus_mod_idemp_l. f_equal. lia.
    + f_equal. lia.
Qed.

(** C9 (amended).  The counter of the accept loop starts at 0 and is
    incremented before it is used: the [n]-th connection taken since the
    gate was opened gets the id [n mod 2^32], so the first gets 1 and each
    one the id of the one before plus one modulo 2^32; the id is not 0 for
    the first 2^32 - 1 connections. *)
Theorem session_id_sequence (conf : Conf) (g : Gate) (w : World) (st0 st : Sys)
  (ops : list Op) (k : Z)
  (inb : list ReadEvent) (wf : option (nat * error)) (pickr pickw : option nat) :
  Gate_open conf true g w = Ok st0 ->
  run ops st0 = Ok st ->
  acceptor st = Some k ->
  quit (gate st) = false ->
  let n := Z.of_nat (conns_accepted ops) + 1 in
  acceptor st0 = Some 0
  /\ exists st' s,
       step (OpAccept (AcceptConn inb wf pickr pickw)) st = Ok st'
       /\ workers st' = workers st ++ [s]
       /\ sessions (gate st') !! sessionid s = Some s
       /\ sessionid s = n mod uint32_mod
       /\ (n < uint32_mod -> sessionid s = n /\ sessionid s <> 0).
Proof.
  intros Hopen Hrun Ha Hq n. injection Hopen as <-. split; [reflexivity|].
  assert (Hk : k = (0 + Z.of_nat (conns_accepted ops)) mod uint32_mod).
  { eapply (run_acceptor ops _ st 0 k Hrun); [reflexivity| |assumption..].
    split; reflexivity. }
  destruct (accept_conn_spec st k inb wf pickr pickw Ha Hq)
    as (st' & s & Hst & _ & _ & _ & _ & Hsid & _ & Hmap & Hw).
  exists st', s. split; [exact Hst|]. split; [exact Hw|].
  assert (Hid : sessionid s = n mod uint32_mod).
  { rewrite Hsid, Hk. unfold uint32_incr. rewrite Zplus_mod_idemp_l. reflexivity. }
  split; [|split; [exact Hid|]].
  - rewrite Hmap, Hsid. apply lookup_insert_eq.
  - intros Hn. rewrite Hid. rewrite Z.mod_small by (unfold n in *; lia).
    unfold n. lia.
Qed.

Lemma session_id_sequence_witness :
  acceptor st_open = Some 0
  /\ exists st' s,
       step (OpAccept (AcceptConn [] None None None)) st_kicked = Ok st'
       /\ workers st' = workers st_kicked ++ [s]
       /\ sessions (gate st') !! sessionid s = Some s
       /\ sessionid s = (Z.of_nat (conns_accepted ops_kick) + 1) mod uint32_mod
       /\ (Z.of_nat (conns_accepted ops_kick) + 1 < uint32_mod ->
           sessionid s = Z.of_nat (conns_accepted ops_kick) + 1 /\ sessionid s <> 0).
Proof.
  apply (session_id_sequence (mkConf 0 0) (newGate 7%nat) empty_world st_open st_kicked
           ops_kick 2 [] None None None); vm_compute; reflexivity.
Defined.

Lemma ids_wrap_after (n : nat) :
  Z.of_nat n = uint32_mod - 1 ->
  exists st st' s,
    run (replicate n acc_plain) st_open = Ok st
    /\ step acc_plain st = Ok st'
    /\ workers st' = workers st ++ [s]
    /\ sessions (gate st') !! 0 = Some s
    /\ sessionid s = 0.
Proof.
  intros Hn.
  assert (Hr : 0 <= 0 < uint32_mod) by (split; reflexivity).
  destruct (run_accepts [] None None None n st_open 0 eq_refl eq_refl Hr Hr)
    as (st & Hrun & Ha & _ & Hq).
  rewrite Hn in Ha.
  change ((0 + (uint32_mod - 1)) mod uint32_mod) with (uint32_mod - 1) in Ha.
  destruct (accept_conn_spec st _ [] None None None Ha Hq)
    as (st' & s & Hst & _ & _ & _ & _ & Hsid & _ & Hmap & Hw).
  change (uint32_incr (uint32_mod - 1)) with 0 in Hsid, Hmap.
  exists st, st', s. split; [exact Hrun|]. split; [exact Hst|].
  split; [exact Hw|]. split; [|exact Hsid].
  rewrite Hmap. apply lookup_insert_eq.
Qed.

(** C9, as stated, fails: the connection taken after 2^32 - 1 others gets
    the id 0. *)
Lemma session_id_zero_assigned :
  exists st st' s,
    run (replicate (Z.to_nat (uint32_mod - 1)) acc_plain) st_open = Ok st
    /\ step acc_plain st = Ok st'
    /\ workers st' = workers st ++ [s]
    /\ sessions (gate st') !! 0 = Some s
    /\ sessionid s = 0.
Proof.
  apply ids_wrap_after. apply Z2Nat.id. discriminate.
Qed.

(** ** [Close] called twice *)

Lemma close_calls_emit (sid : Z) (e : Event) (w : World) :
  close_calls sid (emit e w)
  = (close_calls sid w + (if decide (e = EvSessionClose sid) then 1 else 0))%nat.
Proof.
  unfold close_calls. cbn [trace emit].
  rewrite list.filter_app, length_app, filter_cons, filter_nil.
  destruct (decide (e = EvSessionClose sid)); reflexivity.
Qed.

Lemma Session_Close_trace (s : Session) (w : World) :
  trace (Session_Close s w)
  = trace w ++ [EvSessionClose (sessionid s); EvConnClose (conn s)].
Proof. cbn. rewrite <- app_assoc. reflexivity. Qed.

Lemma close_calls_Session_Close (s : Session) (w : World) :
  close_calls (sessionid s) (Session_Close s w) = S (close_calls (sessionid s) w).
Proof.
  unfold close_calls. rewrite Session_Close_trace.
  rewrite list.filter_app, length_app, !filter_cons, filter_nil.
  rewrite decide_True by reflexivity. rewrite decide_False by discriminate.
  cbn [length]. lia.
Qed.

Lemma close_calls_locked (sid : Z) (w : World) :
  close_calls sid (emit EvUnlock (emit EvLock w)) = close_calls sid w.
Proof.
  rewrite !close_calls_emit. rewrite !decide_False by discriminate. lia.
Qed.

(** X20.  Whatever the interleaving of [kick] and [closeSession] on a
    registered session, both calls finish and the entry is gone; but
    [Close] runs twice on the session exactly when [kick] takes the mutex
    first, and once otherwise. *)
Lemma interleave_close_calls (g : Gate) (w : World) (s : Session) (sched : list bool) :
  sessions g !! sessionid s = Some s ->
  sched ∈ schedules ->
  exists g' w',
    interleave sched (InKick (sessionid s)) (InCloseSession s) g w
    = (Finished, Finished, g', w')
    /\ sessions g' !! sessionid s = None
    /\ close_calls (sessionid s) w'
       = (close_calls (sessionid s) w + if kick_first sched then 2 else 1)%nat.
Proof.
  intros Hs Hin. unfold schedules in Hin.
  assert (Hdel : delete (sessionid s) (sessions g) !! sessionid s = None)
    by apply lookup_delete_eq.
  repeat (apply elem_of_cons in Hin as [-> | Hin]);
    [ .. | apply elem_of_nil in Hin; contradiction ];
    cbn [interleave thread_step kick_locked closeSession_locked kick_first
         sessions set_sessions];
    rewrite ?Hs; cbn [interleave thread_step kick_locked closeSession_locked
                      sessions set_sessions];
    rewrite ?Hdel; cbn [interleave thread_step sessions set_sessions];
    eexists _, _; (split; [reflexivity|]); cbn [sessions set_sessions];
    (split; [rewrite ?lookup_delete_eq; reflexivity|]);
    rewrite ?close_calls_Session_Close, ?close_calls_locked,
            ?close_calls_Session_Close, ?close_calls_locked,
            ?close_calls_Session_Close; lia.
Qed.

(** C4.  The invariant of the session map does not hold on this run: a
    connection is accepted, its session is kicked, and the worker, whose
    read fails because the connection was closed, runs [closeSession].
    [Session.Close] has then run twice on session 1, and its reader and
    its writer are in their pools twice.  [kick] closes only the session
    it found in the map; [closeSession] closes without asking. *)
Theorem kick_then_read_failure_closes_twice :
  exists st,
    run [acc_plain; OpKick 1; OpWake 0%nat] st_open = Ok st
    /\ close_calls 1 (world st) = 2%nat
    /\ bufioReaderPool (world st) = [0%nat; 0%nat]
    /\ bufioWriterPool (world st) = [0%nat; 0%nat].
Proof.
  eexists. split; [vm_compute; reflexivity|]. vm_compute. auto.
Qed.

(** What follows from it: the next two sessions are built on the same
    reader and the same writer, over two different connections. *)
Example shared_buffers_after_double_close :
  exists st s2 s3,
    run [acc_plain; OpKick 1; OpWake 0%nat; acc_reuse; acc_reuse] st_open = Ok st
    /\ sessions (gate st) !! 2 = Some s2
    /\ sessions (gate st) !! 3 = Some s3
    /\ conn s2 <> conn s3
    /\ brw s2 = brw s3.
Proof.
  eexists _, _, _. split; [vm_compute; reflexivity|].
  split; [vm_compute; reflexivity|]. split; [vm_compute; reflexivity|].
  split; [discriminate | reflexivity].
Qed.

(** ** Buffers: allocation, release and reuse *)

Lemma pool_Get_elem (pick : option nat) (pool pool' : list nat) (p : nat) :
  pool_Get pick pool = (Some p, pool') ->
  p ∈ pool /\ (forall q, q ∈ pool' -> q ∈ pool).
Proof.
  unfold pool_Get. destruct pick as [i|]; [|discriminate].
  destruct (pool !! i) as [p'|] eqn:Hp; [|discriminate].
  intros [= <- <-]. split.
  - apply list_elem_of_lookup. eauto.
  - intros q Hq. eapply list_elem_of_delete_inv, Hq.
Qed.

Lemma pool_Get_miss (pick : option nat) (pool pool' : list nat) :
  pool_Get pick pool = (None, pool') -> pool' = pool.
Proof.
  unfold pool_Get. destruct pick as [i|]; [|intros [= <-]; reflexivity].
  destruct (pool !! i); [discriminate|]. intros [= <-]. reflexivity.
Qed.

Lemma newBufioReader_bound (pick : option nat) (c : nat) (w w' : World) (br : nat) :
  (forall p, p ∈ bufioReaderPool w -> (p < length (readers w))%nat) ->
  newBufioReader pick c w = (br, w') ->
  readers w' !! br = Some (mkReader (Some c))
  /\ (forall p, p ∈ bufioReaderPool w' -> (p < length (readers w'))%nat)
  /\ writers w' = writers w /\ bufioWriterPool w' = bufioWriterPool w
  /\ conns w' = conns w /\ trace w' = trace w /\ mailbox w' = mailbox w.
Proof.
  intros Hp. unfold newBufioReader.
  destruct (pool_Get pick (bufioReaderPool w)) as [[p|] pool'] eqn:E.
  - apply pool_Get_elem in E as [Hin Hsub]. intros [= <- <-]. cbn.
    split; [apply list_lookup_insert_eq; auto|].
    split; [|auto 10]. intros q Hq. rewrite length_insert. auto.
  - apply pool_Get_miss in E as ->. intros [= <- <-]. cbn.
    split; [rewrite lookup_app_r, Nat.sub_diag by lia; reflexivity|].
    split; [|auto 10]. intros q Hq. rewrite length_app. apply Hp in Hq. lia.
Qed.

Lemma newBufioWriter_bound (pick : option nat) (c : nat) (w w' : World) (bw : nat) :
  (forall p, p ∈ bufioWriterPool w -> (p < length (writers w))%nat) ->
  newBufioWriter pick c w = (bw, w') ->
  writers w' !! bw = Some (mkWriter (Some c) None [])
  /\ (forall p, p ∈ bufioWriterPool w' -> (p < length (writers w'))%nat)
  /\ readers w' = readers w /\ bufioReaderPool w' = bufioReaderPool w
  /\ conns w' = conns w /\ trace w' = trace w /\ mailbox w' = mailbox w.
Proof.
  intros Hp. unfold newBufioWriter.
  destruct (pool_Get pick (bufioWriterPool w)) as [[p|] pool'] eqn:E.
  - apply pool_Get_elem in E as [Hin Hsub]. intros [= <- <-]. cbn.
    split; [apply list_lookup_insert_eq; auto|].
    split; [|auto 10]. intros q Hq. rewrite length_insert. auto.
  - apply pool_Get_miss in E as ->. intros [= <- <-]. cbn.
    split; [rewrite lookup_app_r, Nat.sub_diag by lia; reflexivity|].
    split; [|auto 10]. intros q Hq. rewrite length_app. apply Hp in Hq. lia.
Qed.

(** A session built in a world whose pools are sound has its reader and
    its writer bound to its connection, the writer clean; the pools stay
    sound and the connections are not touched. *)
Lemma newSession_bound (sid : Z) (c : nat) (pickr pickw : option nat)
  (w w' : World) (s : Session) :
  pools_ok w ->
  newSession sid c pickr pickw w = (s, w') ->
  sessionid s = sid /\ conn s = c
  /\ readers w' !! Reader (brw s) = Some (mkReader (Some c))
  /\ writers w' !! Writer (brw s) = Some (mkWriter (Some c) None [])
  /\ pools_ok w'
  /\ conns w' = conns w /\ trace w' = trace w /\ mailbox w' = mailbox w.
Proof.
  intros [Hpr Hpw]. unfold newSession.
  destruct (newBufioReader pickr c w) as [br w1] eqn:Er.
  destruct (newBufioWriter pickw c w1) as [bw w2] eqn:Ew.
  apply (newBufioReader_bound _ _ _ _ _ Hpr) in Er
    as (Hr1 & Hp1 & Hw1 & Hwp1 & Hc1 & Ht1 & Hm1).
  rewrite <- Hw1, <- Hwp1 in Hpw.
  apply (newBufioWriter_bound _ _ _ _ _ Hpw) in Ew
    as (Hw2 & Hp2 & Hr2 & Hrp2 & Hc2 & Ht2 & Hm2).
  intros [= <- <-]. cbn [sessionid conn brw Reader Writer].
  split; [reflexivity|]. split; [reflexivity|].
  split; [rewrite Hr2; exact Hr1|]. split; [exact Hw2|].
  split; [split; [rewrite Hr2, Hrp2; exact Hp1 | exact Hp2]|].
  split; [congruence|]. split; congruence.
Qed.

(** X1.  A session built with both pools empty gets a new reader and a new
    writer at the end of the heaps, bound to its connection; no object
    that existed before is changed, and the pools stay empty. *)
Theorem newSession_empty_pools (sid : Z) (c : nat) (pickr pickw : option nat)
  (w : World) :
  bufioReaderPool w = [] ->
  bufioWriterPool w = [] ->
  exists w',
    newSession sid c pickr pickw w
    = (mkSession sid c (mkReadWriter (length (readers w)) (length (writers w))), w')
    /\ readers w' = readers w ++ [mkReader (Some c)]
    /\ writers w' = writers w ++ [mkWriter (Some c) None []]
    /\ bufioReaderPool w' = [] /\ bufioWriterPool w' = []
    /\ conns w' = conns w.
Proof.
  intros Hr Hw. unfold newSession, newBufioReader, newBufioWriter, pool_Get.
  rewrite Hr. destruct pickr as [i|]; rewrite ?lookup_nil;
    cbn [bufioWriterPool set_readers]; rewrite Hw;
    destruct pickw as [j|]; rewrite ?lookup_nil;
    eexists; (split; [reflexivity|]); cbn; auto.
Qed.

Lemma newSession_empty_pools_witness :
  exists w',
    newSession 2 0 (Some 3%nat) None w_one
    = (mkSession 2 0 (mkReadWriter (length (readers w_one)) (length (writers w_one))), w')
    /\ readers w' = readers w_one ++ [mkReader (Some 0%nat)]
    /\ writers w' = writers w_one ++ [mkWriter (Some 0%nat) None []]
    /\ bufioReaderPool w' = [] /\ bufioWriterPool w' = []
    /\ conns w' = conns w_one.
Proof.
  apply (newSession_empty_pools 2 0 (Some 3%nat) None w_one); reflexivity.
Defined.

(** X2.  [Session.Close] leaves no reference to the closed socket: the
    reader and the writer are reset to a nil stream (the writer's error
    and unflushed bytes dropped) before they are pooled, and the
    connection is closed; nothing is pushed. *)
Theorem Session_Close_resets (s : Session) (w : World) (k : Conn) :
  conns w !! conn s = Some k ->
  (Reader (brw s) < length (readers w))%nat ->
  (Writer (brw s) < length (writers w))%nat ->
  let w' := Session_Close s w in
  readers w' !! Reader (brw s) = Some (mkReader None)
  /\ writers w' !! Writer (brw s) = Some (mkWriter None None [])
  /\ conns w' !! conn s = Some (mkConn true (inbound k) (outbound k) (wfail k))
  /\ bufioReaderPool w' = Reader (brw s) :: bufioReaderPool w
  /\ bufioWriterPool w' = Writer (brw s) :: bufioWriterPool w
  /\ mailbox w' = mailbox w.
Proof.
  intros Hk Hr Hw. cbn.
  rewrite !list_lookup_insert_eq by assumption.
  rewrite list_lookup_alter_eq, Hk. auto 10.
Qed.

Lemma Session_Close_resets_witness :
  readers (Session_Close s_one w_stuck) !! Reader (brw s_one) = Some (mkReader None)
  /\ writers (Session_Close s_one w_stuck) !! Writer (brw s_one)
     = Some (mkWriter None None [])
  /\ conns (Session_Close s_one w_stuck) !! conn s_one
     = Some (mkConn true [] [] None)
  /\ bufioReaderPool (Session_Close s_one w_stuck) = [0%nat]
  /\ bufioWriterPool (Session_Close s_one w_stuck) = [0%nat]
  /\ mailbox (Session_Close s_one w_stuck) = [].
Proof.
  apply (Session_Close_resets s_one w_stuck (mkConn false [] [] None));
    [reflexivity | cbn; lia | cbn; lia].
Defined.

(** X3.  Release and reuse: the session built next after a [Close], when
    the pools hand back what was just put in, runs on the very same
    reader and writer, now bound to the new connection and clean; the
    pools are as before the [Close]. *)
Theorem newSession_after_Close (s : Session) (sid : Z) (c : nat) (w : World) :
  (Reader (brw s) < length (readers w))%nat ->
  (Writer (brw s) < length (writers w))%nat ->
  exists w',
    newSession sid c (Some 0%nat) (Some 0%nat) (Session_Close s w)
    = (mkSession sid c (brw s), w')
    /\ readers w' !! Reader (brw s) = Some (mkReader (Some c))
    /\ writers w' !! Writer (brw s) = Some (mkWriter (Some c) None [])
    /\ bufioReaderPool w' = bufioReaderPool w
    /\ bufioWriterPool w' = bufioWriterPool w
    /\ length (readers w') = length (readers w)
    /\ length (writers w') = length (writers w).
Proof.
  intros Hr Hw. destruct s as [sid0 c0 [r p]]. cbn in Hr, Hw.
  eexists. split; [reflexivity|]. cbn.
  rewrite !list_lookup_insert_eq by (rewrite ?length_insert; assumption).
  rewrite !length_insert. auto 10.
Qed.

Lemma newSession_after_Close_witness :
  exists w',
    newSession 2 1 (Some 0%nat) (Some 0%nat) (Session_Close s_one w_stuck)
    = (mkSession 2 1 (brw s_one), w')
    /\ readers w' !! Reader (brw s_one) = Some (mkReader (Some 1%nat))
    /\ writers w' !! Writer (brw s_one) = Some (mkWriter (Some 1%nat) None [])
    /\ bufioReaderPool w' = bufioReaderPool w_stuck
    /\ bufioWriterPool w' = bufioWriterPool w_stuck
    /\ length (readers w') = length (readers w_stuck)
    /\ length (writers w') = length (writers w_stuck).
Proof.
  apply (newSession_after_Close s_one 2 1 w_stuck); cbn; lia.
Defined.

(** ** The read loop, turn by turn *)

Lemma length_fill_buf (n : nat) (d : list byte) : length (fill_buf n d) = n.
Proof.
  unfold fill_buf, make_bytes.
  rewrite length_take, length_app, length_replicate. lia.
Qed.

Lemma Uint16_range (b : list byte) (v : Z) :
  BigEndian_Uint16 b = Some v -> 0 <= v < uint16_mod.
Proof.
  destruct b as [|b0 [|b1 b]]; try discriminate. intros [= <-].
  pose proof (byte_to_Z_range b0). pose proof (byte_to_Z_range b1).
  rewrite lor_shiftl8 by lia. unfold uint16_mod. lia.
Qed.

(** A read changes nothing but what the connection still has to
    deliver, and hands back a buffer of the length asked for. *)
Lemma Session_ReadFull_frame (s : Session) (n : nat) (w w' : World)
  (b : list byte) (e : option error) :
  Session_ReadFull s n w = Ok (b, e, w') ->
  length b = n
  /\ mailbox w' = mailbox w /\ trace w' = trace w
  /\ readers w' = readers w /\ writers w' = writers w
  /\ bufioReaderPool w' = bufioReaderPool w
  /\ bufioWriterPool w' = bufioWriterPool w.
Proof.
  unfold Session_ReadFull, bufio_ReadFull.
  destruct (readers w !! Reader (brw s)) as [r|]; [|discriminate].
  destruct n as [|m].
  { intros [= <- <- <-]. auto 10. }
  destruct (rd r) as [c|]; [|discriminate].
  destruct (conns w !! c) as [k|]; [|discriminate].
  destruct (closed k).
  - destruct (io_ReadFull [Fail (NetError false)] (S m)) as [[d e0] rest].
    intros [= <- <- <-]. rewrite length_fill_buf. auto 10.
  - destruct (io_ReadFull (inbound k) (S m)) as [[d e0] rest].
    intros [= <- <- <-]. rewrite length_fill_buf. cbn. auto 10.
Qed.

(** X4.  One turn of the read loop does one of two things.  Either it
    pushes exactly one message, for this gate's address and this
    session's id, with a payload of fewer than 2^16 bytes, and keeps the
    gate as it is; or it takes the session out of the map, closes it
    once, pushes nothing and returns. *)
Theorem serve_iter_outcome (g g' : Gate) (s : Session) (w w' : World) (ctl : Control) :
  serve_iter g s w = Ok (ctl, g', w') ->
  (ctl = Continue /\ g' = g /\ trace w' = trace w
   /\ exists d,
        mailbox w' = mailbox w ++ [(source g, NewClientMsg (sessionid s) d)]
        /\ Z.of_nat (length d) < uint16_mod)
  \/ (ctl = Return
      /\ g' = set_sessions (delete (sessionid s) (sessions g)) g
      /\ mailbox w' = mailbox w
      /\ trace w' = trace w ++ [EvLock; EvUnlock; EvSessionClose (sessionid s);
                               EvConnClose (conn s)]).
Proof.
  unfold serve_iter. intros H.
  destruct (Session_ReadFull s 2 w) as [[[head e] w1]|] eqn:E1; [|discriminate].
  apply Session_ReadFull_frame in E1 as (_ & Hm1 & Ht1 & _).
  cbn [mbind Result_bind] in H.
  destruct e as [e|].
  { injection H as <- <- <-. right. cbn. rewrite Hm1, Ht1, <- !app_assoc. auto. }
  destruct (BigEndian_Uint16 head) as [len|] eqn:Hlen; [|discriminate].
  apply Uint16_range in Hlen.
  destruct (Session_ReadFull s (Z.to_nat len) w1) as [[[d e2] w2]|] eqn:E2;
    [|discriminate].
  apply Session_ReadFull_frame in E2 as (Hd & Hm2 & Ht2 & _).
  cbn [mbind Result_bind] in H.
  destruct e2 as [e2|].
  { injection H as <- <- <-. right. cbn.
    rewrite Hm2, Hm1, Ht2, Ht1, <- !app_assoc. auto. }
  injection H as <- <- <-. left. cbn. rewrite Hm2, Hm1, Ht2, Ht1.
  repeat split. exists d. split; [reflexivity|]. rewrite Hd. lia.
Qed.

Lemma serve_iter_outcome_witness :
  (Continue = Continue /\ g_one = g_one
   /\ trace (set_mailbox (fun q => q ++ [(7%nat, NewClientMsg 1 [])]) w_eof) = trace w_eof
   /\ exists d,
        mailbox (set_mailbox (fun q => q ++ [(7%nat, NewClientMsg 1 [])]) w_eof)
        = mailbox w_eof ++ [(source g_one, NewClientMsg (sessionid s_one) d)]
        /\ Z.of_nat (length d) < uint16_mod)
  \/ (Continue = Return
      /\ g_one = set_sessions (delete (sessionid s_one) (sessions g_one)) g_one
      /\ mailbox (set_mailbox (fun q => q ++ [(7%nat, NewClientMsg 1 [])]) w_eof)
         = mailbox w_eof
      /\ trace (set_mailbox (fun q => q ++ [(7%nat, NewClientMsg 1 [])]) w_eof)
         = trace w_eof ++ [EvLock; EvUnlock; EvSessionClose (sessionid s_one);
                           EvConnClose (conn s_one)]).
Proof.
  apply (serve_iter_outcome g_one g_one s_one w_eof _ Continue). reflexivity.
Defined.




(** A read on a connection closed on this side fails for good. *)
Lemma Session_ReadFull_closed (s : Session) (n : nat) (w : World) (c : nat) (k : Conn) :
  readers w !! Reader (brw s) = Some (mkReader (Some c)) ->
  conns w !! c = Some k ->
  closed k = true ->
  Session_ReadFull s (S n) w = Ok (make_bytes (S n), Some (NetError false), w).
Proof.
  intros Hr Hc Hcl. unfold Session_ReadFull, bufio_ReadFull.
  rewrite Hr. cbn [rd]. rewrite Hc, Hcl. cbn.
  rewrite take_ge by (rewrite length_replicate; lia). reflexivity.
Qed.

(** ** Writes *)

(** A write through a clean writer on an open connection that takes
    everything: the bytes are appended to what the socket has, and the
    writer is clean again. *)
Lemma Session_Write_clean (s : Session) (d : list byte) (w : World) (c : nat) (k : Conn) :
  writers w !! Writer (brw s) = Some (mkWriter (Some c) None []) ->
  conns w !! c = Some k ->
  closed k = false ->
  wfail k = None ->
  exists w',
    Session_Write s d w = Ok w'
    /\ conns w' = <[c := mkConn false (inbound k) (outbound k ++ d) None]> (conns w)
    /\ writers w' = writers w /\ readers w' = readers w
    /\ bufioReaderPool w' = bufioReaderPool w
    /\ bufioWriterPool w' = bufioWriterPool w
    /\ mailbox w' = mailbox w /\ trace w' = trace w.
Proof.
  intros Hb Hc Hopen Hwf.
  assert (Hp : (Writer (brw s) < length (writers w))%nat)
    by (eapply lookup_lt_Some, Hb).
  unfold Session_Write, bufio_Write. rewrite Hb. cbn [err wr buf app mbind Result_bind].
  unfold bufio_Flush. cbn [writers set_writers conns].
  rewrite list_lookup_insert_eq by assumption. cbn [err buf wr].
  destruct d as [|x d].
  - eexists. split; [reflexivity|]. cbn.
    rewrite (list_insert_id _ _ _ Hb). rewrite app_nil_r.
    split; [|auto 10]. symmetry. apply list_insert_id. rewrite Hc. f_equal.
    destruct k; cbn in *; subst; reflexivity.
  - rewrite Hc. unfold conn_Write. rewrite Hopen, Hwf.
    cbn [length]. rewrite Nat.ltb_irrefl.
    eexists. split; [reflexivity|]. cbn.
    rewrite list_insert_insert_eq, (list_insert_id _ _ _ Hb). auto 10.
Qed.

(** X6.  [Gate.Write] sends the payload as it is: two messages for a
    session whose connection is open and takes everything leave exactly
    their bytes, in order and with nothing added, after what the socket
    already had; no other connection is written. *)
Theorem Gate_Write_raw (g : Gate) (s : Session) (sid : Z) (d1 d2 : list byte)
  (w : World) (c : nat) (k : Conn) :
  sessions g !! sid = Some s ->
  writers w !! Writer (brw s) = Some (mkWriter (Some c) None []) ->
  conns w !! c = Some k ->
  closed k = false ->
  wfail k = None ->
  exists w1 w2,
    Gate_Write g (mkClientMsg sid d1) w = Ok w1
    /\ Gate_Write g (mkClientMsg sid d2) w1 = Ok w2
    /\ conns w2 !! c = Some (mkConn false (inbound k) (outbound k ++ d1 ++ d2) None)
    /\ (forall c', c' <> c -> conns w2 !! c' = conns w !! c').
Proof.
  intros Hs Hb Hc Hopen Hwf.
  assert (Hlt : (c < length (conns w))%nat) by (eapply lookup_lt_Some, Hc).
  unfold Gate_Write. cbn [session data]. rewrite Hs.
  destruct (Session_Write_clean s d1 (emit EvRUnlock (emit EvRLock w)) c k
              Hb Hc Hopen Hwf) as (w1 & H1 & Hc1 & Hw1 & _).
  cbn [conns emit writers] in Hc1, Hw1.
  assert (Hk1 : conns (emit EvRUnlock (emit EvRLock w1)) !! c
                = Some (mkConn false (inbound k) (outbound k ++ d1) None)).
  { cbn. rewrite Hc1. apply list_lookup_insert_eq, Hlt. }
  assert (Hb1 : writers (emit EvRUnlock (emit EvRLock w1)) !! Writer (brw s)
                = Some (mkWriter (Some c) None [])).
  { cbn. rewrite Hw1. exact Hb. }
  destruct (Session_Write_clean s d2 _ c _ Hb1 Hk1 eq_refl eq_refl)
    as (w2 & H2 & Hc2 & _).
  exists w1, w2. split; [exact H1|]. split; [exact H2|].
  cbn in Hc2. rewrite Hc2, Hc1. split.
  - rewrite list_lookup_insert_eq by (rewrite length_insert; exact Hlt).
    rewrite <- app_assoc. reflexivity.
  - intros c' Hne. rewrite !list_lookup_insert_ne by congruence. reflexivity.
Qed.

Lemma Gate_Write_raw_witness :
  exists w1 w2,
    Gate_Write g_one (mkClientMsg 1 [x01]) w_one = Ok w1
    /\ Gate_Write g_one (mkClientMsg 1 [x02; x03]) w1 = Ok w2
    /\ conns w2 !! 0%nat = Some (mkConn false [] ([] ++ [x01] ++ [x02; x03]) None)
    /\ (forall c', c' <> 0%nat -> conns w2 !! c' = conns w_one !! c').
Proof.
  apply (Gate_Write_raw g_one s_one 1 [x01] [x02; x03] w_one 0
           (mkConn false [] [] None)); reflexivity.
Defined.

Lemma Session_Write_stuck (s : Session) (d : list byte) (w : World)
  (b : BufioWriter) (e : error) :
  writers w !! Writer (brw s) = Some b ->
  err b = Some e ->
  Session_Write s d w = Ok w.
Proof.
  intros Hb He. unfold Session_Write, bufio_Write, bufio_Flush.
  rewrite Hb, He. cbn [mbind Result_bind]. rewrite Hb, He. reflexivity.
Qed.

(** X7.  Once a flush has failed, the session is mute: every later
    [Session.Write] returns normally and changes nothing, so no byte of
    it reaches the socket, even where the connection is still open. *)
Theorem Session_Write_mute_after_error (s : Session) (w1 w2 : World) (e : error) :
  bufio_Flush (Writer (brw s)) w1 = Ok (Some e, w2) ->
  forall d', Session_Write s d' w2 = Ok w2.
Proof.
  intros Hfl d'. unfold bufio_Flush in Hfl.
  destruct (writers w1 !! Writer (brw s)) as [b|] eqn:Hb; [|discriminate].
  assert (Hp : (Writer (brw s) < length (writers w1))%nat)
    by (eapply lookup_lt_Some, Hb).
  destruct (err b) as [e0|] eqn:He.
  { injection Hfl as <- <-. eapply Session_Write_stuck; eassumption. }
  destruct (buf b) as [|x l]; [discriminate|].
  destruct (wr b) as [c|]; [|discriminate].
  destruct (conns w1 !! c) as [k|]; [|discriminate].
  destruct (conn_Write k (x :: l)) as [[k' m] e0].
  destruct e0 as [e0|].
  - injection Hfl as <- <-.
    eapply (Session_Write_stuck s d' _ _ e0);
      [cbn; apply list_lookup_insert_eq, Hp | reflexivity].
  - destruct (m <? length (x :: l))%nat; [|discriminate].
    injection Hfl as <- <-.
    eapply (Session_Write_stuck s d' _ _ ErrShortWrite);
      [cbn; apply list_lookup_insert_eq, Hp | reflexivity].
Qed.

Lemma Session_Write_mute_after_error_witness :
  Session_Write s_one hello w_short_flushed = Ok w_short_flushed.
Proof.
  apply (Session_Write_mute_after_error s_one w_short_written w_short_flushed
           (NetError false)); reflexivity.
Defined.

(** ** The accept loop, in full *)

Lemma pools_ok_conns (f : list Conn -> list Conn) (w : World) :
  pools_ok w -> pools_ok (set_conns f w).
Proof. intros H. exact H. Qed.

Lemma pools_ok_emit (e : Event) (w : World) : pools_ok w -> pools_ok (emit e w).
Proof. intros H. exact H. Qed.

(** Everything a turn of the accept loop that gets a connection does,
    in a world whose pools are sound. *)
Lemma accept_conn_world (st : Sys) (k : Z)
  (inb : list ReadEvent) (wf : option (nat * error)) (pickr pickw : option nat) :
  acceptor st = Some k ->
  quit (gate st) = false ->
  pools_ok (world st) ->
  let c := length (conns (world st)) in
  exists st' s,
    step (OpAccept (AcceptConn inb wf pickr pickw)) st = Ok st'
    /\ sessionid s = uint32_incr k /\ conn s = c
    /\ gate st' = set_sessions (<[uint32_incr k := s]> (sessions (gate st)))
                    (set_clinetnum (uint32_incr (clinetnum (gate st))) (gate st))
    /\ acceptor st' = Some (uint32_incr k)
    /\ workers st' = workers st ++ [s]
    /\ conns (world st') = conns (world st) ++ [mkConn (over_cap (gate st)) inb [] wf]
    /\ readers (world st') !! Reader (brw s) = Some (mkReader (Some c))
    /\ writers (world st') !! Writer (brw s) = Some (mkWriter (Some c) None [])
    /\ pools_ok (world st')
    /\ mailbox (world st') = mailbox (world st)
    /\ trace (world st')
       = trace (world st) ++ (if over_cap (gate st) then [EvConnClose c] else [])
         ++ [EvLock; EvUnlock].
Proof.
  intros Ha Hq Hp c. unfold step. rewrite Ha. unfold start_iter. rewrite Hq.
  fold (over_cap (gate st)). fold c.
  set (w1 := set_conns (fun h => h ++ [mkConn false inb [] wf]) (world st)).
  set (w2 := if over_cap (gate st) then conn_Close c w1 else w1).
  assert (Hp2 : pools_ok w2).
  { unfold w2. destruct (over_cap (gate st)); exact Hp. }
  assert (Hc2 : conns w2 = conns (world st) ++ [mkConn (over_cap (gate st)) inb [] wf]).
  { unfold w2. destruct (over_cap (gate st)); [|reflexivity].
    cbn. unfold c. rewrite (alter_app_r_alt _ _ _ (length (conns (world st)))) by lia.
    rewrite Nat.sub_diag. reflexivity. }
  assert (Ht2 : trace w2
                = trace (world st) ++ (if over_cap (gate st) then [EvConnClose c] else [])).
  { unfold w2. destruct (over_cap (gate st)); cbn; [reflexivity|].
    rewrite app_nil_r. reflexivity. }
  assert (Hm2 : mailbox w2 = mailbox (world st)).
  { unfold w2. destruct (over_cap (gate st)); reflexivity. }
  destruct (newSession (uint32_incr k) c pickr pickw w2) as [s w3] eqn:Hns.
  apply (newSession_bound _ _ _ _ _ _ _ Hp2) in Hns
    as (Hsid & Hconn & Hr & Hw & Hp3 & Hc3 & Ht3 & Hm3).
  exists (mkSys
            (set_sessions (<[uint32_incr k := s]> (sessions (gate st)))
               (set_clinetnum (uint32_incr (clinetnum (gate st))) (gate st)))
            (emit EvUnlock (emit EvLock w3)) (Some (uint32_incr k)) (workers st ++ [s])), s.
  split; [reflexivity|]. cbn.
  rewrite Hc3, Ht3, Hm3, Hc2, Ht2, Hm2, <- !app_assoc.
  split; [exact Hsid|]. split; [exact Hconn|]. repeat split; try assumption; apply Hp3.
Qed.

(** X8.  A connection accepted under the cap can be written to at once:
    after the accept turn, [Gate.Write] for the new id puts exactly the
    payload on the new connection, which stays open. *)
Theorem accept_then_Write (st : Sys) (k : Z) (inb : list ReadEvent)
  (pickr pickw : option nat) (d : list byte) :
  acceptor st = Some k ->
  quit (gate st) = false ->
  over_cap (gate st) = false ->
  pools_ok (world st) ->
  exists st2,
    run [OpAccept (AcceptConn inb None pickr pickw);
         OpWrite (mkClientMsg (uint32_incr k) d)] st = Ok st2
    /\ conns (world st2) = conns (world st) ++ [mkConn false inb d None].
Proof.
  intros Ha Hq Hcap Hp.
  destruct (accept_conn_world st k inb None pickr pickw Ha Hq Hp)
    as (st1 & s & Hst & Hsid & Hconn & Hg & _ & _ & Hc & _ & Hw & _).
  rewrite Hcap in Hc.
  assert (Hk : conns (emit EvRUnlock (emit EvRLock (world st1)))
                 !! length (conns (world st))
               = Some (mkConn false inb [] None)).
  { cbn. rewrite Hc, lookup_app_r, Nat.sub_diag by lia. reflexivity. }
  destruct (Session_Write_clean s d (emit EvRUnlock (emit EvRLock (world st1)))
              (length (conns (world st))) _ Hw Hk eq_refl eq_refl)
    as (w2 & HW & Hc2 & _).
  exists (mkSys (gate st1) w2 (acceptor st1) (workers st1)).
  cbn [run]. rewrite Hst. cbn [mbind Result_bind step].
  unfold Gate_Write. cbn [session data]. rewrite Hg. cbn [sessions set_sessions].
  rewrite lookup_insert_eq, HW. cbn [mbind Result_bind].
  split; [reflexivity|]. cbn [world]. rewrite Hc2. cbn [conns emit]. rewrite Hc.
  cbn [inbound outbound app].
  rewrite insert_app_r_alt, Nat.sub_diag by lia. reflexivity.
Qed.

Lemma pools_ok_empty : pools_ok empty_world.
Proof. split; intros p Hp; cbn in Hp; apply elem_of_nil in Hp; contradiction. Defined.

Lemma accept_then_Write_witness :
  exists st2,
    run [OpAccept (AcceptConn [] None None None);
         OpWrite (mkClientMsg (uint32_incr 0) hello)] st_cap1 = Ok st2
    /\ conns (world st2) = conns (world st_cap1) ++ [mkConn false [] hello None].
Proof.
  apply (accept_then_Write st_cap1 0 [] None None hello);
    [reflexivity | reflexivity | reflexivity | exact pools_ok_empty].
Defined.

(** X9.  A connection rejected for the cap costs a place all the same.
    The accept turn closes it and still registers a session; the first
    turn of that session's worker finds the closed socket, takes the
    session out of the map again and closes it.  Afterwards the map holds
    what it held before, less anything filed under the new id, but the
    count stays one higher. *)
Theorem rejected_session_lifecycle (st : Sys) (k : Z) (inb : list ReadEvent)
  (wf : option (nat * error)) (pickr pickw : option nat) :
  acceptor st = Some k ->
  quit (gate st) = false ->
  over_cap (gate st) = true ->
  pools_ok (world st) ->
  exists st2,
    run [OpAccept (AcceptConn inb wf pickr pickw); OpServe (length (workers st))] st
    = Ok st2
    /\ sessions (gate st2) = delete (uint32_incr k) (sessions (gate st))
    /\ clinetnum (gate st2) = uint32_incr (clinetnum (gate st))
    /\ workers st2 = workers st
    /\ mailbox (world st2) = mailbox (world st)
    /\ conns (world st2) = conns (world st) ++ [mkConn true inb [] wf].
Proof.
  intros Ha Hq Hcap Hp.
  destruct (accept_conn_world st k inb wf pickr pickw Ha Hq Hp)
    as (st1 & s & Hst & Hsid & Hconn & Hg & _ & Hwk & Hc & Hr & _ & _ & Hm & _).
  rewrite Hcap in Hc.
  assert (Hk : conns (world st1) !! length (conns (world st))
               = Some (mkConn true inb [] wf)).
  { rewrite Hc, lookup_app_r, Nat.sub_diag by lia. reflexivity. }
  pose proof (Session_ReadFull_closed s 1 (world st1) _ _ Hr Hk eq_refl) as Hrd.
  eexists. cbn [run]. rewrite Hst. cbn [mbind Result_bind step].
  rewrite Hwk, lookup_app_r, Nat.sub_diag by lia. cbn [lookup list_lookup].
  unfold serve_iter. rewrite Hrd. cbn [mbind Result_bind ReadFull_filter as_net_Error].
  unfold closeSession, closeSession_locked. cbn [mbind Result_bind].
  split; [reflexivity|]. cbn. rewrite Hg, Hsid, Hm, Hc, Hconn. cbn.
  rewrite delete_insert_eq.
  split; [reflexivity|]. split; [reflexivity|].
  split; [|split; [reflexivity|]].
  - rewrite delete_middle. apply app_nil_r.
  - rewrite (alter_app_r_alt _ _ _ (length (conns (world st)))) by lia.
    rewrite Nat.sub_diag. reflexivity.
Qed.

Lemma rejected_session_lifecycle_witness :
  exists st2,
    run [OpAccept (AcceptConn [] None None None); OpServe (length (workers st_full))]
        st_full = Ok st2
    /\ sessions (gate st2) = delete (uint32_incr 1) (sessions (gate st_full))
    /\ clinetnum (gate st2) = uint32_incr (clinetnum (gate st_full))
    /\ workers st2 = workers st_full
    /\ mailbox (world st2) = mailbox (world st_full)
    /\ conns (world st2) = conns (world st_full) ++ [mkConn true [] [] None].
Proof.
  apply (rejected_session_lifecycle st_full 1 [] None None None);
    [reflexivity | reflexivity | reflexivity | exact pools_ok_empty].
Defined.

(** ** The cap, once reached *)

Lemma step_maxclient (o : Op) (st st' : Sys) :
  step o st = Ok st' -> maxclient (gate st') = maxclient (gate st).
Proof.
  destruct o as [a|i|i|sid|msg|]; cbn [step].
  - destruct (acceptor st) as [k|] eqn:Ha; [|intros [= <-]; reflexivity].
    destruct (quit (gate st)) eqn:Hq.
    { unfold start_iter. rewrite Hq. intros [= <-]. reflexivity. }
    destruct a as [|inb wf pickr pickw].
    { unfold start_iter. rewrite Hq. intros [= <-]. reflexivity. }
    destruct (accept_conn_spec st k inb wf pickr pickw Ha Hq)
      as (st1 & s & Hst & _ & Hmx & _).
    unfold step in Hst. rewrite Ha in Hst. rewrite Hst. intros [= <-]. exact Hmx.
  - destruct (workers st !! i) as [s|]; [|intros [= <-]; reflexivity].
    destruct (serve_iter (gate st) s (world st)) as [[[ctl g] w]|] eqn:Hs;
      [|discriminate].
    intros [= <-]. apply (serve_iter_counters _ _ _ _ _ _ Hs).
  - destruct (workers st !! i) as [s|]; [|intros [= <-]; reflexivity].
    destruct (conn_closed (conn s) (world st)); [|intros [= <-]; reflexivity].
    cbn. intros [= <-]. reflexivity.
  - pose proof (kick_counters (gate st) sid (world st)) as Hk.
    destruct (kick (gate st) sid (world st)) as [g w]. intros [= <-]. apply Hk.
  - destruct (Gate_Write (gate st) msg (world st)) as [w|]; [|discriminate].
    intros [= <-]. reflexivity.
  - unfold Gate_close. destruct (quit (gate st)); [discriminate|].
    intros [= <-]. reflexivity.
Qed.

(** The connection a turn of the accept loop adds, and whether it is
    closed at once. *)
Lemma accept_conn_conns (st : Sys) (k : Z)
  (inb : list ReadEvent) (wf : option (nat * error)) (pickr pickw : option nat) :
  acceptor st = Some k ->
  quit (gate st) = false ->
  exists st',
    step (OpAccept (AcceptConn inb wf pickr pickw)) st = Ok st'
    /\ conns (world st') = conns (world st) ++ [mkConn (over_cap (gate st)) inb [] wf].
Proof.
  intros Ha Hq. unfold step. rewrite Ha. unfold start_iter. rewrite Hq.
  fold (over_cap (gate st)).
  match goal with |- context [newSession ?a ?b ?c ?d ?e] =>
    destruct (newSession_spec a b c d e) as (br & bw & w' & Hns & Hc & _);
    rewrite Hns end.
  eexists. split; [reflexivity|]. cbn. rewrite Hc.
  destruct (over_cap (gate st)); [|reflexivity].
  cbn. rewrite (alter_app_r_alt _ _ _ (length (conns (world st)))) by lia.
  rewrite Nat.sub_diag. reflexivity.
Qed.

(** X10.  The cap is never freed.  Once the count has reached a cap that
    is not zero, it is still at or above it after any run (short of 2^32
    connections), whatever sessions were closed or kicked meanwhile; so
    every connection the accept loop takes from then on is closed at
    once. *)
Theorem cap_never_freed (ops : list Op) (st st' : Sys) :
  run ops st = Ok st' ->
  over_cap (gate st) = true ->
  0 <= clinetnum (gate st) ->
  clinetnum (gate st) + Z.of_nat (conns_accepted ops) < uint32_mod ->
  over_cap (gate st') = true
  /\ forall k inb wf pickr pickw,
       acceptor st' = Some k ->
       quit (gate st') = false ->
       exists st'',
         step (OpAccept (AcceptConn inb wf pickr pickw)) st' = Ok st''
         /\ conns (world st'') = conns (world st') ++ [mkConn true inb [] wf].
Proof.
  intros Hrun Hcap H0 Hb.
  assert (Hinv : maxclient (gate st') = maxclient (gate st)
                 /\ clinetnum (gate st) <= clinetnum (gate st')).
  { clear Hcap. revert st Hrun H0 Hb.
    induction ops as [|o ops IH]; intros st Hrun H0 Hb.
    - injection Hrun as <-. split; [reflexivity|lia].
    - cbn [run] in Hrun.
      destruct (step o st) as [st1|] eqn:Hstep; [|discriminate].
      cbn [mbind Result_bind] in Hrun.
      rewrite conns_accepted_cons in Hb.
      pose proof (step_maxclient o st st1 Hstep) as Hmx.
      destruct (step_clinetnum o st st1 Hstep) as [Heq|[Hacc Hinc]].
      + destruct (IH st1 Hrun) as [Hm Hle]; [lia| |].
        * destruct (is_accept_conn o); lia.
        * split; [congruence|lia].
      + rewrite Hacc in Hb. rewrite uint32_incr_small in Hinc by lia.
        destruct (IH st1 Hrun) as [Hm Hle]; [lia|lia|].
        split; [congruence|lia]. }
  destruct Hinv as [Hmx Hle].
  assert (Hcap' : over_cap (gate st') = true).
  { unfold over_cap in *. rewrite Hmx.
    apply andb_true_iff in Hcap as [Hnz Hge]. apply andb_true_iff. split; [exact Hnz|].
    apply Z.leb_le in Hge. apply Z.leb_le. lia. }
  split; [exact Hcap'|].
  intros k inb wf pickr pickw Ha Hq.
  destruct (accept_conn_conns st' k inb wf pickr pickw Ha Hq) as (st'' & Hst & Hc).
  exists st''. rewrite Hcap' in Hc. auto.
Qed.

Lemma cap_never_freed_witness :
  over_cap (gate (final_state (run [OpKick 1; acc_plain] st_full))) = true
  /\ forall k inb wf pickr pickw,
       acceptor (final_state (run [OpKick 1; acc_plain] st_full)) = Some k ->
       quit (gate (final_state (run [OpKick 1; acc_plain] st_full))) = false ->
       exists st'',
         step (OpAccept (AcceptConn inb wf pickr pickw))
              (final_state (run [OpKick 1; acc_plain] st_full)) = Ok st''
         /\ conns (world st'')
            = conns (world (final_state (run [OpKick 1; acc_plain] st_full)))
              ++ [mkConn true inb [] wf].
Proof.
  apply (cap_never_freed [OpKick 1; acc_plain] st_full);
    [vm_compute; reflexivity | reflexivity | discriminate | vm_compute; reflexivity].
Defined.

(** ** Shutdown *)



(** ** The session map *)

Lemma run_snoc (ops : list Op) (o : Op) (st st' : Sys) :
  run (ops ++ [o]) st = Ok st' ->
  exists st1, run ops st = Ok st1 /\ step o st1 = Ok st'.
Proof.
  revert st. induction ops as [|o' ops IH]; intros st Hrun.
  - cbn in Hrun. destruct (step o st) as [s1|] eqn:E; [|discriminate].
    cbn in Hrun. exists st. split; [reflexivity|congruence].
  - cbn [app run] in Hrun. destruct (step o' st) as [s1|] eqn:E; [|discriminate].
    cbn [mbind Result_bind] in Hrun. destruct (IH s1 Hrun) as (st1 & H1 & H2).
    exists st1. cbn [run]. rewrite E. auto.
Qed.

Lemma closeSession_sessions (g : Gate) (s : Session) (w : World) :
  sessions (closeSession g s w).1 = delete (sessionid s) (sessions g).
Proof. reflexivity. Qed.

Lemma kick_sessions (g : Gate) (sid : Z) (w : World) :
  sessions (kick g sid w).1 = delete sid (sessions g).
Proof.
  unfold kick, kick_locked. destruct (sessions g !! sid) as [s|] eqn:E; cbn.
  - reflexivity.
  - symmetry. apply delete_id, E.
Qed.

Lemma serve_iter_sessions (g g' : Gate) (s : Session) (w w' : World) (ctl : Control) :
  serve_iter g s w = Ok (ctl, g', w') ->
  sessions g' = sessions g \/ sessions g' = delete (sessionid s) (sessions g).
Proof.
  unfold serve_iter. intros H.
  destruct (Session_ReadFull s 2 w) as [[[head e] w1]|]; [|discriminate].
  cbn [mbind Result_bind] in H.
  destruct e as [e|].
  { injection H as _ <- _. right. reflexivity. }
  destruct (BigEndian_Uint16 head) as [len|]; [|discriminate].
  destruct (Session_ReadFull s (Z.to_nat len) w1) as [[[d e2] w2]|]; [|discriminate].
  cbn [mbind Result_bind] in H.
  destruct e2 as [e2|].
  { injection H as _ <- _. right. reflexivity. }
  injection H as _ <- _. left. reflexivity.
Qed.

(** An entry of the map after one operation was there before, or was put
    there by the accept loop under the next value of its counter. *)
Lemma step_sessions (o : Op) (st st' : Sys) (sid : Z) (s : Session) :
  step o st = Ok st' ->
  sessions (gate st') !! sid = Some s ->
  sessions (gate st) !! sid = Some s
  \/ (is_accept_conn o = true
      /\ exists k, acceptor st = Some k /\ quit (gate st) = false
                   /\ sid = uint32_incr k /\ sessionid s = sid).
Proof.
  destruct o as [a|i|i|sid0|msg|]; cbn [step is_accept_conn].
  - destruct (acceptor st) as [k|] eqn:Ha; [|intros [= <-]; auto].
    destruct (quit (gate st)) eqn:Hq.
    { unfold start_iter. rewrite Hq. intros [= <-]. auto. }
    destruct a as [|inb wf pickr pickw].
    { unfold start_iter. rewrite Hq. intros [= <-]. auto. }
    destruct (accept_conn_spec st k inb wf pickr pickw Ha Hq)
      as (st1 & s1 & Hst & _ & _ & _ & _ & Hsid & _ & Hmap & _).
    unfold step in Hst. rewrite Ha in Hst. rewrite Hst. intros [= <-].
    rewrite Hmap. intros Hl. apply lookup_insert_Some in Hl as [[<- <-]|[_ Hl]].
    + right. split; [reflexivity|]. exists k. auto.
    + left. exact Hl.
  - destruct (workers st !! i) as [s0|]; [|intros [= <-]; auto].
    destruct (serve_iter (gate st) s0 (world st)) as [[[ctl g] w]|] eqn:Hs;
      [|discriminate].
    intros [= <-]. cbn. intros Hl.
    destruct (serve_iter_sessions _ _ _ _ _ _ Hs) as [Heq|Heq]; rewrite Heq in Hl.
    + auto.
    + apply lookup_delete_Some in Hl as [_ Hl]. auto.
  - destruct (workers st !! i) as [s0|]; [|intros [= <-]; auto].
    destruct (conn_closed (conn s0) (world st)); [|intros [= <-]; auto].
    cbn. intros [= <-]. cbn. intros Hl.
    apply lookup_delete_Some in Hl as [_ Hl]. auto.
  - pose proof (kick_sessions (gate st) sid0 (world st)) as Hk.
    destruct (kick (gate st) sid0 (world st)) as [g w]. intros [= <-]. cbn.
    cbn in Hk. rewrite Hk. intros Hl.
    apply lookup_delete_Some in Hl as [_ Hl]. auto.
  - destruct (Gate_Write (gate st) msg (world st)) as [w|]; [|discriminate].
    intros [= <-]. auto.
  - unfold Gate_close. destruct (quit (gate st)); [discriminate|].
    intros [= <-]. auto.
Qed.

(** X12.  From a new gate just opened, and for fewer than 2^32 - 1
    connections taken: every session in the map is filed under its own
    id, the ids in use lie between 1 and the number of connections taken,
    and the id the accept loop will give next is not in the map, so an
    accept never replaces a live session. *)
Theorem session_map_ids (conf : Conf) (src : Address) (w : World)
  (st0 st : Sys) (ops : list Op) :
  Gate_open conf true (newGate src) w = Ok st0 ->
  run ops st0 = Ok st ->
  Z.of_nat (conns_accepted ops) < uint32_mod - 1 ->
  (forall sid s,
     sessions (gate st) !! sid = Some s ->
     sessionid s = sid /\ 1 <= sid <= Z.of_nat (conns_accepted ops))
  /\ (forall k,
        acceptor st = Some k ->
        quit (gate st) = false ->
        sessions (gate st) !! uint32_incr k = None).
Proof.
  intros Hopen Hrun Hb. injection Hopen as <-.
  assert (Hr0 : 0 <= 0 < uint32_mod) by (split; reflexivity).
  assert (Hinv : forall sid s,
             sessions (gate st) !! sid = Some s ->
             sessionid s = sid /\ 1 <= sid <= Z.of_nat (conns_accepted ops)).
  { clear -Hrun Hb Hr0. revert st Hrun Hb.
    induction ops as [|o ops IH] using rev_ind; intros st Hrun Hb sid s Hl.
    - injection Hrun as <-. cbn in Hl. rewrite lookup_empty in Hl. discriminate.
    - apply run_snoc in Hrun as (st1 & Hrun1 & Hstep).
      rewrite conns_accepted_snoc in Hb |- *.
      destruct (step_sessions o st1 st sid s Hstep Hl)
        as [Hold|(Hacc & k & Ha & Hq & Hsid & Hown)].
      + destruct (IH st1 Hrun1) with (sid := sid) (s := s) as [Hown Hrange];
          [destruct (is_accept_conn o); lia | exact Hold |].
        split; [exact Hown|]. destruct (is_accept_conn o); lia.
      + rewrite Hacc in Hb |- *.
        pose proof (run_acceptor ops _ st1 0 k Hrun1 eq_refl Hr0 Ha Hq) as Hk.
        rewrite Z.add_0_l, Z.mod_small in Hk by lia.
        split; [exact Hown|]. subst sid k.
        rewrite uint32_incr_small by lia. lia. }
  split; [exact Hinv|].
  intros k Ha Hq.
  pose proof (run_acceptor ops _ st 0 k Hrun eq_refl Hr0 Ha Hq) as Hk.
  rewrite Z.add_0_l, Z.mod_small in Hk by lia.
  destruct (sessions (gate st) !! uint32_incr k) as [s|] eqn:Hl; [|reflexivity].
  apply Hinv in Hl as [_ Hrange].
  rewrite uint32_incr_small in Hrange by lia. lia.
Qed.

Lemma session_map_ids_witness :
  (forall sid s,
     sessions (gate st_kicked) !! sid = Some s ->
     sessionid s = sid /\ 1 <= sid <= Z.of_nat (conns_accepted ops_kick))
  /\ (forall k,
        acceptor st_kicked = Some k ->
        quit (gate st_kicked) = false ->
        sessions (gate st_kicked) !! uint32_incr k = None).
Proof.
  apply (session_map_ids (mkConf 0 0) 7%nat empty_world st_open st_kicked ops_kick);
    vm_compute; reflexivity.
Defined.

(** ** [kick], again *)

(** X13.  [kick] of the same id a second time does nothing: the gate it
    left is returned as it is, no object changes and nothing is closed
    again. *)
Theorem kick_twice (g : Gate) (sid : Z) (w : World) :
  exists g1 w1 w2,
    kick g sid w = (g1, w1)
    /\ kick g1 sid w1 = (g1, w2)
    /\ same_objects w1 w2
    /\ trace w2 = trace w1 ++ [EvLock; EvUnlock].
Proof.
  pose proof (kick_sessions g sid w) as Hk.
  destruct (kick g sid w) as [g1 w1] eqn:E1. cbn in Hk.
  exists g1, w1. unfold kick at 1, kick_locked.
  rewrite Hk, lookup_delete_eq. eexists. split; [reflexivity|].
  split; [reflexivity|]. unfold same_objects. cbn. rewrite <- app_assoc. auto 10.
Qed.

(** X14.  [kick] touches one session only: every other entry of the map
    stays, and no connection, reader or writer other than those of the
    kicked session is changed; nothing is pushed. *)
Theorem kick_leaves_others (g : Gate) (sid : Z) (s : Session) (w : World) :
  sessions g !! sid = Some s ->
  (forall sid', sid' <> sid -> sessions (kick g sid w).1 !! sid' = sessions g !! sid')
  /\ (forall c, c <> conn s -> conns (kick g sid w).2 !! c = conns w !! c)
  /\ (forall p, p <> Reader (brw s) -> readers (kick g sid w).2 !! p = readers w !! p)
  /\ (forall p, p <> Writer (brw s) -> writers (kick g sid w).2 !! p = writers w !! p)
  /\ mailbox (kick g sid w).2 = mailbox w.
Proof.
  intros Hs. unfold kick, kick_locked. rewrite Hs. cbn.
  split; [intros sid' Hne; apply lookup_delete_ne; congruence|].
  split; [intros c Hne; apply list_lookup_alter_ne; congruence|].
  split; [intros p Hne; apply list_lookup_insert_ne; congruence|].
  split; [intros p Hne; apply list_lookup_insert_ne; congruence|reflexivity].
Qed.

Lemma kick_leaves_others_witness :
  (forall sid', sid' <> 1 -> sessions (kick g_one 1 w_one).1 !! sid' = sessions g_one !! sid')
  /\ (forall c, c <> conn s_one -> conns (kick g_one 1 w_one).2 !! c = conns w_one !! c)
  /\ (forall p, p <> Reader (brw s_one) ->
                readers (kick g_one 1 w_one).2 !! p = readers w_one !! p)
  /\ (forall p, p <> Writer (brw s_one) ->
                writers (kick g_one 1 w_one).2 !! p = writers w_one !! p)
  /\ mailbox (kick g_one 1 w_one).2 = mailbox w_one.
Proof.
  apply (kick_leaves_others g_one 1 s_one w_one). reflexivity.
Defined.

Lemma interleave_close_calls_witness :
  exists g' w',
    interleave [true; false; true; false] (InKick (sessionid s_one))
               (InCloseSession s_one) g_one w_one
    = (Finished, Finished, g', w')
    /\ sessions g' !! sessionid s_one = None
    /\ close_calls (sessionid s_one) w'
       = (close_calls (sessionid s_one) w_one
          + if kick_first [true; false; true; false] then 2 else 1)%nat.
Proof.
  apply (interleave_close_calls g_one w_one s_one [true; false; true; false]);
    [reflexivity | apply list_elem_of_further, list_elem_of_here].
Defined.

(** ** The registry *)

(** X15.  [GateDispatch] registers a gate for an address once: an address
    without a gate gets a new one (count 0, no session, not shut down), a
    gate already there is kept as it is, no other address is touched, and
    a second call changes nothing. *)
Theorem GateDispatch_registers_once (GATES : gmap Address Gate) (src : Address) :
  (GATES !! src = None -> GateDispatch GATES src !! src = Some (newGate src))
  /\ (forall g, GATES !! src = Some g -> GateDispatch GATES src = GATES)
  /\ (forall a, a <> src -> GateDispatch GATES src !! a = GATES !! a)
  /\ GateDispatch (GateDispatch GATES src) src = GateDispatch GATES src.
Proof.
  split; [|split; [|split]].
  - intros E. unfold GateDispatch. rewrite E. apply lookup_insert_eq.
  - intros g E. unfold GateDispatch. rewrite E. reflexivity.
  - intros a Hne. unfold GateDispatch.
    destruct (GATES !! src); [reflexivity|]. apply lookup_insert_ne. congruence.
  - unfold GateDispatch at 1.
    destruct (GateDispatch GATES src !! src) as [g|] eqn:E; [reflexivity|].
    unfold GateDispatch in E. destruct (GATES !! src) as [g|] eqn:E0.
    + congruence.
    + rewrite lookup_insert_eq in E. discriminate.
Qed.

(** X16.  A response for the address of a gate that [GateDispatch] has
    just created is taken without panic and written nowhere: the new gate
    has no session, so its [Write] finds nothing. *)
Theorem GateDispatch_then_response (GATES : gmap Address Gate) (src : Address)
  (m : ClientMsg) (rest : list Value) (w : World) :
  GATES !! src = None ->
  exists w',
    GateResponseDispatch (GateDispatch GATES src) src (VClientMsg (Some m) :: rest) w
    = Ok w'
    /\ same_objects w w'
    /\ trace w' = trace w ++ [EvRLock; EvRUnlock].
Proof.
  intros H. unfold GateResponseDispatch, GateDispatch. rewrite H, lookup_insert_eq.
  unfold Gate_Write. cbn [sessions newGate]. rewrite lookup_empty.
  eexists. split; [reflexivity|]. unfold same_objects. cbn.
  rewrite <- app_assoc. auto 10.
Qed.

Lemma GateDispatch_then_response_witness :
  exists w',
    GateResponseDispatch (GateDispatch GATES_one 8%nat) 8%nat
      (VClientMsg (Some (mkClientMsg 1 hello)) :: []) w_one = Ok w'
    /\ same_objects w_one w'
    /\ trace w' = trace w_one ++ [EvRLock; EvRUnlock].
Proof.
  apply (GateDispatch_then_response GATES_one 8%nat (mkClientMsg 1 hello) [] w_one).
  reflexivity.
Defined.

(** X17.  [GateResponseDispatch] returns normally in one case only: its
    first argument is a [ClientMsg] pointer that is not nil, a gate is
    registered for the source address, and that gate's [Write] returns;
    the world it leaves is the one [Write] leaves.  Arguments after the
    first are not looked at. *)
Theorem GateResponseDispatch_returns_iff (GATES : gmap Address Gate) (src : Address)
  (args : list Value) (w w' : World) :
  GateResponseDispatch GATES src args w = Ok w'
  <-> exists m rest g,
        args = VClientMsg (Some m) :: rest
        /\ GATES !! src = Some g
        /\ Gate_Write g m w = Ok w'.
Proof.
  unfold GateResponseDispatch. split.
  - destruct args as [|[[m|]|] rest]; try discriminate.
    + destruct (GATES !! src) as [g|]; [|discriminate]. intros H. eauto 10.
    + destruct (GATES !! src); discriminate.
  - intros (m & rest & g & -> & -> & H). exact H.
Qed.

(** ** Reads that fail *)

(** When an error comes before the chunks have filled the buffer, the
    loop returns what the chunks held and that error. *)
Lemma read_loop_chunks_fail (cs : list (list byte)) (e : error)
  (rest : list ReadEvent) (n : nat) :
  (length (concat cs) < n)%nat ->
  read_loop (map Chunk cs ++ Fail e :: rest) n = (concat cs, Some e, rest).
Proof.
  revert n. induction cs as [|c cs IH]; intros n Hn.
  - destruct n as [|m]; [cbn in Hn; lia|]. reflexivity.
  - destruct n as [|m]; [lia|].
    cbn [concat] in Hn. rewrite length_app in Hn.
    cbn [map app read_loop concat].
    replace (length c <=? S m)%nat with true by (symmetry; apply Nat.leb_le; lia).
    rewrite IH by lia. reflexivity.
Qed.

Lemma Session_ReadFull_chunks_fail (s : Session) (w : World) (c : nat) (k : Conn)
  (cs : list (list byte)) (e : error) (rest : list ReadEvent) (n : nat) :
  readers w !! Reader (brw s) = Some (mkReader (Some c)) ->
  conns w !! c = Some k ->
  closed k = false ->
  inbound k = map Chunk cs ++ Fail e :: rest ->
  (length (concat cs) < n)%nat ->
  e <> EOF ->
  Session_ReadFull s n w
  = Ok (concat cs ++ make_bytes (n - length (concat cs)), ReadFull_filter (Some e),
        set_conns (fun h => <[c := mkConn false rest (outbound k) (wfail k)]> h) w).
Proof.
  intros Hr Hc Hopen Hin Hn He.
  unfold Session_ReadFull, bufio_ReadFull. rewrite Hr.
  destruct n as [|m]; [lia|]. cbn [rd]. rewrite Hc, Hopen, Hin.
  unfold io_ReadFull. rewrite read_loop_chunks_fail by assumption.
  replace (S m <=? length (concat cs))%nat with false
    by (symmetry; apply Nat.leb_gt; lia).
  cbn [mbind Result_bind]. f_equal. f_equal. f_equal.
  - unfold fill_buf. apply take_ge. unfold make_bytes.
    rewrite length_app, length_replicate. lia.
  - destruct e; try reflexivity. contradiction.
Qed.

(** X18.  A temporary error in the middle of a payload is not reported:
    the turn pushes a message of the announced length all the same, with
    the bytes that had arrived followed by zeroes, and goes on reading
    after the error. *)
Theorem serve_iter_masks_truncation (g : Gate) (s : Session) (w : World)
  (c : nat) (k : Conn) (p : list byte) (j : nat) (rest : list ReadEvent) :
  Z.of_nat (length p) <= 65535 ->
  (j < length p)%nat ->
  readers w !! Reader (brw s) = Some (mkReader (Some c)) ->
  conns w !! c = Some k ->
  closed k = false ->
  inbound k = Chunk (BigEndian_PutUint16 (Z.of_nat (length p)))
              :: Chunk (take j p) :: Fail (NetError true) :: rest ->
  exists w',
    serve_iter g s w = Ok (Continue, g, w')
    /\ mailbox w'
       = mailbox w ++ [(source g,
                        NewClientMsg (sessionid s)
                          (take j p ++ make_bytes (length p - j)))]
    /\ conns w' !! c = Some (mkConn false rest (outbound k) (wfail k)).
Proof.
  intros Hp Hj Hr Hc Hopen Hin.
  assert (Hlt : (c < length (conns w))%nat) by (eapply lookup_lt_Some, Hc).
  destruct (Session_ReadFull_chunks s w c k
              [BigEndian_PutUint16 (Z.of_nat (length p))]
              (Chunk (take j p) :: Fail (NetError true) :: rest) 2 Hr Hc Hopen Hin)
    as (cs1 & w1 & Hrd1 & Hcat1 & Hr1 & Hm1 & Hc1); [cbn; lia|].
  cbn in Hcat1.
  change (take 2 (concat [BigEndian_PutUint16 (Z.of_nat (length p))]))
    with (BigEndian_PutUint16 (Z.of_nat (length p))) in Hrd1.
  unfold serve_iter. rewrite Hrd1. cbn [mbind Result_bind].
  rewrite Uint16_PutUint16 by (unfold uint16_mod; lia).
  rewrite Nat2Z.id. rewrite <- Hr1 in Hr.
  assert (Hin1 : inbound (mkConn false
                    (map Chunk cs1 ++ Chunk (take j p) :: Fail (NetError true) :: rest)
                    (outbound k) (wfail k))
                 = map Chunk (cs1 ++ [take j p]) ++ Fail (NetError true) :: rest).
  { cbn. rewrite map_app, <- app_assoc. reflexivity. }
  assert (Hcat : concat (cs1 ++ [take j p]) = take j p).
  { rewrite concat_app, Hcat1. cbn. apply app_nil_r. }
  assert (Hlen : length (take j p) = j) by (rewrite length_take; lia).
  rewrite (Session_ReadFull_chunks_fail s w1 c _ (cs1 ++ [take j p]) (NetError true)
             rest (length p) Hr Hc1 eq_refl Hin1)
    by (rewrite ?Hcat, ?Hlen; first [lia | discriminate]).
  cbn [mbind Result_bind ReadFull_filter as_net_Error].
  eexists. split; [reflexivity|]. cbn. rewrite Hm1, Hcat, Hlen.
  split; [reflexivity|].
  apply list_lookup_insert_eq. eapply lookup_lt_Some, Hc1.
Qed.

Lemma serve_iter_masks_truncation_witness :
  exists w',
    serve_iter g_one s_one w_cut = Ok (Continue, g_one, w')
    /\ mailbox w'
       = mailbox w_cut ++ [(source g_one,
                            NewClientMsg (sessionid s_one)
                              (take 2 hello ++ make_bytes (length hello - 2)))]
    /\ conns w' !! 0%nat = Some (mkConn false [Chunk [x6c; x6c; x6f]] [] None).
Proof.
  apply (serve_iter_masks_truncation g_one s_one w_cut 0
           (mkConn false [Chunk [x00; x05]; Chunk [x68; x65]; Fail (NetError true);
                          Chunk [x6c; x6c; x6f]] [] None)
           hello 2 [Chunk [x6c; x6c; x6f]]);
    [cbn; lia | cbn; lia | reflexivity ..].
Defined.

(** X19.  A transport error that is not temporary ends the loop at once:
    the first turn takes the session out of the map, closes it (its
    connection closed, [Close] run once) and returns, with nothing
    pushed. *)
Theorem serve_returns_on_failure (fuel : nat) (g : Gate) (s : Session) (w : World)
  (k : Conn) (rest : list ReadEvent) :
  readers w !! Reader (brw s) = Some (mkReader (Some (conn s))) ->
  conns w !! conn s = Some k ->
  closed k = false ->
  inbound k = Fail (NetError false) :: rest ->
  exists g' w',
    serve (S fuel) g s w = Ok (Return, g', w')
    /\ sessions g' = delete (sessionid s) (sessions g)
    /\ mailbox w' = mailbox w
    /\ conns w' !! conn s = Some (mkConn true rest (outbound k) (wfail k))
    /\ close_calls (sessionid s) w' = S (close_calls (sessionid s) w).
Proof.
  intros Hr Hc Hopen Hin.
  assert (Hlt : (conn s < length (conns w))%nat) by (eapply lookup_lt_Some, Hc).
  pose proof (Session_ReadFull_chunks_fail s w (conn s) k [] (NetError false) rest 2
                Hr Hc Hopen Hin) as Hrd.
  cbn [serve]. unfold serve_iter. rewrite Hrd by (cbn; first [lia | discriminate]).
  cbn [mbind Result_bind ReadFull_filter as_net_Error].
  unfold closeSession, closeSession_locked. cbn [mbind Result_bind].
  eexists _, _. split; [reflexivity|]. split; [reflexivity|]. split; [reflexivity|].
  split.
  - cbn. rewrite list_lookup_alter_eq, list_lookup_insert_eq by exact Hlt. reflexivity.
  - rewrite close_calls_Session_Close, close_calls_locked. reflexivity.
Qed.

Lemma serve_returns_on_failure_witness :
  exists g' w',
    serve 4 g_one s_one w_reset = Ok (Return, g', w')
    /\ sessions g' = delete (sessionid s_one) (sessions g_one)
    /\ mailbox w' = mailbox w_reset
    /\ conns w' !! conn s_one = Some (mkConn true [Chunk [x00]] [] None)
    /\ close_calls (sessionid s_one) w' = S (close_calls (sessionid s_one) w_reset).
Proof.
  apply (serve_returns_on_failure 3 g_one s_one w_reset
           (mkConn false [Fail (NetError false); Chunk [x00]] [] None)); reflexivity.
Defined.
